(** * Linkman browser extension: bookmark synchronisation

    A shallow embedding of the synchronisation core of the extension
    (utils.js, background.js, options.js) and the properties of its three
    policies: Push (import), Pull-Merge and Mirror (auto-sync), of the
    retrying transport and of the scheduler. *)

From Stdlib Require Import ZArith.
From stdpp Require Import gmap strings list fin_maps.

Set Warnings "-register-all,-clear-no-such-hyp".
Local Open Scope string_scope.
Local Open Scope Z_scope.
Local Open Scope list_scope.

(** ** Data model *)

(** A record of the remote collection, as the JSON of [GET /bookmarks/sync]
    gives it. [bm.url] is a string ([url TEXT NOT NULL]); [bm.title] may be
    null: the code reads it only through [bm.title || bm.url], which does not
    tell null, undefined and the empty string apart, so the empty string
    stands for all three. *)
Record BookmarkRecord := mkBookmark {
  bm_url : string;
  bm_title : string
}.

(** A node of the local tree ([chrome.bookmarks.BookmarkTreeNode]). The code
    reads [node.url] only through [if (node.url)], so the empty string stands
    for a missing url (a folder); [node.children] is read only through
    [if (node.children) traverseNodes(node.children)], for which a missing
    array and an empty one are the same. *)
Inductive NativeNode := mkNode {
  node_id : nat;
  node_title : string;
  node_url : string;
  node_children : list NativeNode
}.

(** One configured extra header, [{key, value}]. *)
Record Header := mkHeader {
  key : string;
  value : string
}.

(** The persisted settings, [chrome.storage.sync]. A key that was never
    written is [None]. *)
Record Settings := mkSettings {
  backendUrl : option string;
  apiKey : option string;
  autoSync : bool;
  extraHeaders : option (list Header)
}.

(** JavaScript truthiness of a string. *)
Definition truthy (s : string) : bool := negb (String.eqb s "").

(** Truthiness of a possibly missing string property. *)
Definition truthy_opt (s : option string) : bool :=
  match s with
  | Some s => truthy s
  | None => false
  end.

(** [a || b] on strings. *)
Definition or_else (a b : string) : string := if truthy a then a else b.

(** ** The local bookmark store *)

(** Modelled from the spec: the local store is the browser's
    [chrome.bookmarks] (an external collaborator, section 6 of the
    specification: [getTree], [create(title, url)], [remove(nodeId)]). The
    store keeps the forest that [getTree] returns and the next free node id;
    [create] attaches a fresh childless node, keeping title and url as given,
    after the existing top-level nodes; [remove] drops the node that carries
    the id. *)
Record Store := mkStore {
  tree : list NativeNode;
  next_id : nat
}.

Definition bookmarks_create (title url : string) (s : Store) : Store :=
  {| tree := tree s ++ [mkNode (next_id s) title url []];
     next_id := S (next_id s) |}.

Fixpoint prune (i : nat) (n : NativeNode) : list NativeNode :=
  if Nat.eqb (node_id n) i then []
  else [mkNode (node_id n) (node_title n) (node_url n)
          (flat_map (prune i) (node_children n))].

Definition bookmarks_remove (i : nat) (s : Store) : Store :=
  {| tree := flat_map (prune i) (tree s); next_id := next_id s |}.

(** ** Tree traversal *)

(** [traverseNodes] of background.js: depth-first, pre-order; a node is
    pushed iff its url is truthy, and its children are visited in either
    case. The result is the array [nativeBookmarks]. *)
Fixpoint traverseNode (n : NativeNode) : list NativeNode :=
  (if truthy (node_url n) then [n] else [])
  ++ flat_map traverseNode (node_children n).

Definition traverseNodes (nodes : list NativeNode) : list NativeNode :=
  flat_map traverseNode nodes.

(** The set [nativeUrls] that the same traversal fills (background.js and
    the Pull-Merge handler of options.js). *)
Definition nativeUrls (nodes : list NativeNode) : gset string :=
  list_to_set (node_url <$> traverseNodes nodes).

(** [flatBookmarks] of the Push handler: [{title, url}] of each pushed node. *)
Definition flatBookmarks (nodes : list NativeNode) : list (string * string) :=
  (λ n, (node_title n, node_url n)) <$> traverseNodes nodes.

(** ** Requests and responses *)

Inductive Method := GET | POST | DELETE.

(** [new URL(path, base)] with the pairs appended to its [searchParams]:
    the resolution is the browser's; the request keeps the parts. *)
Record Url := mkUrl {
  url_path : string;
  url_base : string;
  url_query : list (string * string)
}.

(** The JSON body of an upsert, [{url, title, tags}]. *)
Record Upsert := mkUpsert {
  up_url : string;
  up_title : string;
  up_tags : list string
}.

(** The arguments of one [fetch(url, options)]. The headers are a JavaScript
    object used as a map from header name to value. *)
Record Request := mkRequest {
  req_method : Method;
  req_url : Url;
  req_headers : gmap string string;
  req_body : option Upsert
}.

(** What [res.json()] yields: the promise rejects, or it gives a falsy value
    (null), or an array of records. *)
Inductive Json :=
| JInvalid
| JNull
| JArray (records : list BookmarkRecord).

Record Response := mkResponse {
  status : Z;
  body : Json
}.

(** [res.ok]: the status is in the range 200-299. *)
Definition ok (res : Response) : bool :=
  (200 <=? status res) && (status res <=? 299).

(** What one [fetch] settles to: it rejects (DNS or connection failure) or
    resolves with a response, whatever its status. *)
Inductive Outcome :=
| Rejects
| Resolves (res : Response).

(** The values thrown in the code. *)
Inductive Error :=
| TypeError
| ClientError (st : Z)
| ServerReturned (st : Z)
| FailedToFetch
| SyntaxError.

(** The messages of [showSyncStatus]; the template strings keep their
    numbers as arguments. *)
Inductive StatusMsg :=
| SetBackendUrlFirst
| PermissionMissing
| NoNativeBookmarks
| Imported (successCount failCount : nat)
| FailedToImport
| NoBookmarksOnBackend
| Synced (addCount : nat)
| FailedToSync.

(** What a run does that can be observed from outside, in order. *)
Inductive Event :=
| EvFetch (req : Request)
| EvWarn (backoff : Z) (retries : nat)
| EvTimeout (ms : Z)
| EvCreate (title url : string)
| EvRemove (id : nat)
| EvStatus (msg : StatusMsg) (isError : bool)
| EvLog
| EvError (err : Error).

(** ** The world a handler runs in *)

(** The persisted settings, the bookmarks API (absent without the
    permission) and its store, the network (the outcome of the n-th [fetch]
    of the run, given its request), the number of fetches made so far and
    the trace of events. *)
Record World := mkWorld {
  storage : Settings;
  has_bookmarks : bool;
  bookmarks : Store;
  network : nat → Request → Outcome;
  fetches : nat;
  trace : list Event
}.

Inductive Result (A : Type) :=
| Ok (a : A)
| Throw (e : Error).
Arguments Ok {A} a.
Arguments Throw {A} e.

(** An asynchronous function body: it runs in a world and returns or throws. *)
Definition Js (A : Type) : Type := World → Result A * World.

Definition ret {A} (a : A) : Js A := λ w, (Ok a, w).

Definition bind {A B} (f : A → Js B) (m : Js A) : Js B :=
  λ w, match m w with
       | (Ok a, w') => f a w'
       | (Throw e, w') => (Throw e, w')
       end.

Definition throw {A} (e : Error) : Js A := λ w, (Throw e, w).

(** [try { m } catch (error) { h error }]. *)
Definition try_catch {A} (m : Js A) (h : Error → Js A) : Js A :=
  λ w, match m w with
       | (Ok a, w') => (Ok a, w')
       | (Throw e, w') => h e w'
       end.

#[export] Instance Js_ret : MRet Js := @ret.
#[export] Instance Js_bind : MBind Js := @bind.

(** The world after one more event. *)
Definition log (e : Event) (w : World) : World :=
  mkWorld (storage w) (has_bookmarks w) (bookmarks w)
    (network w) (fetches w) (trace w ++ [e]).

(** The world after one more [fetch]. *)
Definition fetched (req : Request) (w : World) : World :=
  mkWorld (storage w) (has_bookmarks w) (bookmarks w)
    (network w) (S (fetches w)) (trace w ++ [EvFetch req]).

(** The world after a change of the local store. *)
Definition stored (f : Store → Store) (w : World) : World :=
  mkWorld (storage w) (has_bookmarks w) (f (bookmarks w))
    (network w) (fetches w) (trace w).

Definition emit (e : Event) : Js unit := λ w, (Ok tt, log e w).

(** [for (let x of xs) { body x }]. *)
Fixpoint for_of {A} (xs : list A) (body : A → Js unit) : Js unit :=
  match xs with
  | [] => ret tt
  | x :: rest => body x ;; for_of rest body
  end.

(** [chrome.storage.sync.get]: the snapshot of the settings. *)
Definition getSettings : Js Settings := λ w, (Ok (storage w), w).

(** [fetch(url, options)]. *)
Definition fetch (req : Request) : Js Response :=
  λ w, match network w (fetches w) req with
       | Rejects => (Throw TypeError, fetched req w)
       | Resolves res => (Ok res, fetched req w)
       end.

(** [res.json()]. *)
Definition json (res : Response) : Js (option (list BookmarkRecord)) :=
  match body res with
  | JInvalid => throw SyntaxError
  | JNull => ret None
  | JArray records => ret (Some records)
  end.

(** [await new Promise(r => setTimeout(r, ms))]. *)
Definition setTimeout (ms : Z) : Js unit := emit (EvTimeout ms).

Definition getTree : Js (list NativeNode) := λ w, (Ok (tree (bookmarks w)), w).

Definition with_store (f : Store → Store) : Js unit := λ w, (Ok tt, stored f w).

(** [chrome.bookmarks.create({title, url})]. *)
Definition create (title url : string) : Js unit :=
  with_store (bookmarks_create title url) ;; emit (EvCreate title url).

(** [chrome.bookmarks.remove(id)]. *)
Definition remove (id : nat) : Js unit :=
  with_store (bookmarks_remove id) ;; emit (EvRemove id).

Definition showSyncStatus (msg : StatusMsg) (isError : bool) : Js unit :=
  emit (EvStatus msg isError).

(** ** utils.js *)

(** [buildHeaders(settings, isJson = false)]. *)
Definition buildHeaders (settings : Settings) (isJson : bool) : gmap string string :=
  let headers : gmap string string :=
    {[ "Authorization" := "Bearer " +:+ default "" (apiKey settings) ]} in
  let headers :=
    if isJson then <["Content-Type" := "application/json"]> headers
    else <["Accept" := "application/json"]> headers in
  match extraHeaders settings with
  | Some hs =>
      foldl (λ headers h,
               if truthy (key h) then <[key h := value h]> headers else headers)
            headers hs
  | None => headers
  end.

(** The test of line 31: a status in [400,500) other than 429. *)
Definition client_error (st : Z) : bool :=
  (400 <=? st) && (st <? 500) && negb (st =? 429).

(** [fetchWithRetry(url, options = {}, retries = 3, backoff = 1000)]. The
    retry count is a natural number: the callers pass none, so it starts at
    3 and is only decremented while positive. Both [throw]s are inside the
    [try], so the [catch] receives them as it receives a rejected [fetch]. *)
Fixpoint fetchWithRetry (req : Request) (retries : nat) (backoff : Z) : Js Response :=
  try_catch
    (res ← fetch req;
     if negb (ok res) then
       if client_error (status res)
       then throw (ClientError (status res))
       else throw (ServerReturned (status res))
     else ret res)
    (λ error,
       match retries with
       | S retries' =>
           emit (EvWarn backoff retries) ;;
           setTimeout backoff ;;
           fetchWithRetry req retries' (backoff * 2)
       | O => throw error
       end).

(** The default arguments. *)
Definition default_retries : nat := 3%nat.
Definition default_backoff : Z := 1000.

(** [chrome.bookmarks], as the guards [!chrome.bookmarks] read it. *)
Definition chrome_bookmarks : Js bool := λ w, (Ok (has_bookmarks w), w).

(** [settings.backendUrl] where the code has found it truthy. *)
Definition base_of (settings : Settings) : string := default "" (backendUrl settings).

(** ** background.js: the Mirror pass *)

(** The headers that [performAutoSync] builds in place (lines 10-21). *)
Definition autoSyncHeaders (settings : Settings) : gmap string string :=
  let headers : gmap string string :=
    <["Accept" := "application/json"]>
      {[ "Authorization" := "Bearer " +:+ default "" (apiKey settings) ]} in
  match extraHeaders settings with
  | Some hs =>
      foldl (λ headers h,
               if truthy (key h) then <[key h := value h]> headers else headers)
            headers hs
  | None => headers
  end.

(** The request of the full remote collection. *)
Definition syncRequest (settings : Settings) (headers : gmap string string) : Request :=
  mkRequest GET (mkUrl "/bookmarks/sync" (base_of settings) []) headers None.

(** The guard of line 7:
    [!settings.autoSync || !settings.backendUrl || !chrome.bookmarks]. *)
Definition skip_sync (settings : Settings) (has : bool) : bool :=
  negb (autoSync settings) || negb (truthy_opt (backendUrl settings)) || negb has.

(** [performAutoSync()]. *)
Definition performAutoSync : Js unit :=
  settings ← getSettings;
  has ← chrome_bookmarks;
  if skip_sync settings has
  then ret tt
  else
    try_catch
      (let headers := autoSyncHeaders settings in
       res ← fetchWithRetry (syncRequest settings headers) default_retries default_backoff;
       if negb (ok res) then throw FailedToFetch
       else
         backendBookmarks ← json res;
         match backendBookmarks with
         | None => ret tt
         | Some backendBookmarks =>
             bookmarkTreeNodes ← getTree;
             let nativeBookmarks := traverseNodes bookmarkTreeNodes in
             let nativeUrls := nativeUrls bookmarkTreeNodes in
             for_of backendBookmarks (λ bm,
               if negb (bool_decide (bm_url bm ∈ nativeUrls))
               then create (or_else (bm_title bm) (bm_url bm)) (bm_url bm)
               else ret tt) ;;
             let backendUrls : gset string := list_to_set (bm_url <$> backendBookmarks) in
             for_of nativeBookmarks (λ node,
               if negb (bool_decide (node_url node ∈ backendUrls))
               then remove (node_id node)
               else ret tt) ;;
             emit EvLog
         end)
      (λ err, emit (EvError err)).

(** ** options.js: the Push and Pull-Merge handlers *)

(** The upsert of one flattened bookmark: [POST /bookmarks] with the fixed
    tag list [currentTags]. *)
Definition currentTags : list string := ["imported"].

Definition upsertRequest (settings : Settings) (bm : string * string) : Request :=
  mkRequest POST (mkUrl "/bookmarks" (base_of settings) [])
    (buildHeaders settings true)
    (Some (mkUpsert (bm.2) (bm.1) currentTags)).


(** The loop of the Push handler (lines 169-188); the pair is
    [(successCount, failCount)]. *)
Fixpoint upsertAll (settings : Settings) (bms : list (string * string))
    (counts : nat * nat) : Js (nat * nat) :=
  match bms with
  | [] => ret counts
  | bm :: rest =>
      counts' ← try_catch
        (res ← fetchWithRetry (upsertRequest settings bm) default_retries default_backoff;
         if ok res then ret (S counts.1, counts.2) else ret (counts.1, S counts.2))
        (λ err, ret (counts.1, S counts.2));
      upsertAll settings rest counts'
  end.

(** The click handler of [importBookmarksBtn] (Push). The button's label and
    its disabled flag are display only and are left out. *)
Definition importBookmarks : Js unit :=
  settings ← getSettings;
  if negb (truthy_opt (backendUrl settings))
  then showSyncStatus SetBackendUrlFirst true
  else
    try_catch
      (has ← chrome_bookmarks;
       if negb has then showSyncStatus PermissionMissing true
       else
         bookmarkTreeNodes ← getTree;
         let flatBookmarks := flatBookmarks bookmarkTreeNodes in
         if Nat.eqb (length flatBookmarks) 0 then showSyncStatus NoNativeBookmarks false
         else
           counts ← upsertAll settings flatBookmarks (0%nat, 0%nat);
           showSyncStatus (Imported counts.1 counts.2) false)
      (λ error, emit (EvError error) ;; showSyncStatus FailedToImport true).

(** The loop of the Pull-Merge handler (lines 245-254), with [addCount]. *)
Fixpoint addMissing (nativeUrls : gset string) (bms : list BookmarkRecord)
    (addCount : nat) : Js nat :=
  match bms with
  | [] => ret addCount
  | bm :: rest =>
      if negb (bool_decide (bm_url bm ∈ nativeUrls))
      then create (or_else (bm_title bm) (bm_url bm)) (bm_url bm) ;;
           addMissing nativeUrls rest (S addCount)
      else addMissing nativeUrls rest addCount
  end.

(** The click handler of [syncToNativeBtn] (Pull-Merge). *)
Definition syncToNative : Js unit :=
  settings ← getSettings;
  if negb (truthy_opt (backendUrl settings))
  then showSyncStatus SetBackendUrlFirst true
  else
    try_catch
      (has ← chrome_bookmarks;
       if negb has then showSyncStatus PermissionMissing true
       else
         res ← fetchWithRetry (syncRequest settings (buildHeaders settings false))
                 default_retries default_backoff;
         if negb (ok res) then throw FailedToFetch
         else
           backendBookmarks ← json res;
           match backendBookmarks with
           | None => showSyncStatus NoBookmarksOnBackend false
           | Some [] => showSyncStatus NoBookmarksOnBackend false
           | Some backendBookmarks =>
               bookmarkTreeNodes ← getTree;
               addCount ← addMissing (nativeUrls bookmarkTreeNodes) backendBookmarks 0%nat;
               showSyncStatus (Synced addCount) false
           end)
      (λ error, emit (EvError error) ;; showSyncStatus FailedToSync true).

(** ** The Mirror plan *)

(** The records for which the first loop of [performAutoSync] (lines 50-57)
    calls [create], and the nodes for which the second loop (lines 60-65)
    calls [remove]: both tests read the sets filled before the first change. *)
Definition toCreateLocally (remote : list BookmarkRecord) (nodes : list NativeNode)
    : list BookmarkRecord :=
  filter (λ bm, bm_url bm ∉ nativeUrls nodes) remote.

Definition toDeleteLocally (remote : list BookmarkRecord) (nodes : list NativeNode)
    : list NativeNode :=
  filter (λ node, node_url node ∉ (list_to_set (bm_url <$> remote) : gset string))
         (traverseNodes nodes).

(** The store after the creations and the removals of a plan. *)
Definition create_all (bms : list BookmarkRecord) (s : Store) : Store :=
  foldl (λ s bm, bookmarks_create (or_else (bm_title bm) (bm_url bm)) (bm_url bm) s) s bms.

Definition remove_all (nodes : list NativeNode) (s : Store) : Store :=
  foldl (λ s node, bookmarks_remove (node_id node) s) s nodes.

Definition create_events (bms : list BookmarkRecord) : list Event :=
  (λ bm, EvCreate (or_else (bm_title bm) (bm_url bm)) (bm_url bm)) <$> bms.

Definition remove_events (nodes : list NativeNode) : list Event :=
  (λ node, EvRemove (node_id node)) <$> nodes.

(** ** Reading a trace *)

(** The requests of the [fetch] calls, in order. *)
Definition requests (t : list Event) : list Request :=
  omap (λ e, match e with EvFetch req => Some req | _ => None end) t.

(** The waits of [setTimeout], in order, and their sum (milliseconds). *)
Definition timeouts (t : list Event) : list Z :=
  omap (λ e, match e with EvTimeout ms => Some ms | _ => None end) t.

Definition waited (t : list Event) : Z := foldr Z.add 0 (timeouts t).

(** The messages shown to the user. *)
Definition messages (t : list Event) : list (StatusMsg * bool) :=
  omap (λ e, match e with EvStatus msg isError => Some (msg, isError) | _ => None end) t.

(** The successive waits of a call that fails [retries] times. *)
Fixpoint backoffs (retries : nat) (backoff : Z) : list Z :=
  match retries with
  | O => []
  | S retries' => backoff :: backoffs retries' (backoff * 2)
  end.

(** An attempt that does not give an ok response. *)
Definition failed (o : Outcome) : bool :=
  match o with
  | Rejects => true
  | Resolves res => negb (ok res)
  end.

(** The retryable failure of the specification (section 4.1): a failed
    attempt other than a client error. The code makes no such difference;
    the definition only serves to state what is said of such failures. *)
Definition retryable (o : Outcome) : bool :=
  match o with
  | Rejects => true
  | Resolves res => negb (ok res) && negb (client_error (status res))
  end.

(** ** background.js: the scheduler *)

(** A Mirror pass that has started and has not finished: suspended at
    [await fetchWithRetry] (line 24), or inside the two loops with what is
    left of its plan. *)
Inductive Pass :=
| Fetching
| Applying (toCreate : list BookmarkRecord) (toDelete : list NativeNode).

(** The service worker: the global [syncIntervalId], the interval timers
    registered with the browser and the next free timer id, the passes in
    flight, and what they share (settings, bookmarks API and store). *)
Record Scheduler := mkScheduler {
  syncIntervalId : option nat;
  intervals : gset nat;
  next_interval : nat;
  passes : list Pass;
  sch_settings : Settings;
  sch_has_bookmarks : bool;
  sch_store : Store
}.

Definition set_passes (ps : list Pass) (s : Scheduler) : Scheduler :=
  mkScheduler (syncIntervalId s) (intervals s) (next_interval s) ps
    (sch_settings s) (sch_has_bookmarks s) (sch_store s).

Definition set_store (st : Store) (s : Scheduler) : Scheduler :=
  mkScheduler (syncIntervalId s) (intervals s) (next_interval s) (passes s)
    (sch_settings s) (sch_has_bookmarks s) st.

(** A call of [performAutoSync], up to its first [await]: there is no test
    of a pass in flight, only the guard of line 7. *)
Definition call_performAutoSync (s : Scheduler) : Scheduler :=
  if skip_sync (sch_settings s) (sch_has_bookmarks s) then s
  else set_passes (passes s ++ [Fetching]) s.

(** [if (syncIntervalId) clearInterval(syncIntervalId)]. *)
Definition clear_current (s : Scheduler) : gset nat :=
  match syncIntervalId s with
  | Some i => intervals s ∖ {[i]}
  | None => intervals s
  end.

(** [startSync()]. *)
Definition startSync (s : Scheduler) : Scheduler :=
  call_performAutoSync
    (mkScheduler (Some (next_interval s))
       ({[next_interval s]} ∪ clear_current s)
       (S (next_interval s)) (passes s)
       (sch_settings s) (sch_has_bookmarks s) (sch_store s)).

(** [stopSync()]. *)
Definition stopSync (s : Scheduler) : Scheduler :=
  mkScheduler None (clear_current s) (next_interval s) (passes s)
    (sch_settings s) (sch_has_bookmarks s) (sch_store s).

(** What the event loop delivers to the worker. *)
Inductive Input :=
| Startup
| Message (autoSync : bool)
| Tick (id : nat)
| FetchSettled (k : nat) (backendBookmarks : option (list BookmarkRecord))
| Resume (k : nat).

(** One turn of the event loop. [Startup] is the [onInstalled] and
    [onStartup] listeners, [Message] the [SYNC_SETTINGS_CHANGED] listener,
    [Tick] the callback of an interval timer. [FetchSettled k r] resumes
    pass [k] after its fetch: [None] when it threw or the body was null,
    else the records, and the pass reads the tree and fixes its plan.
    [Resume k] lets pass [k] issue its next [create] or [remove], or finish. *)
Definition step (i : Input) (s : Scheduler) : Scheduler :=
  match i with
  | Startup => if autoSync (sch_settings s) then startSync s else s
  | Message autoSync => if autoSync then startSync s else stopSync s
  | Tick id => if bool_decide (id ∈ intervals s) then call_performAutoSync s else s
  | FetchSettled k r =>
      match passes s !! k, r with
      | Some Fetching, Some remote =>
          set_passes (<[k := Applying (toCreateLocally remote (tree (sch_store s)))
                                      (toDeleteLocally remote (tree (sch_store s)))]>
                        (passes s)) s
      | Some Fetching, None => set_passes (delete k (passes s)) s
      | _, _ => s
      end
  | Resume k =>
      match passes s !! k with
      | Some (Applying (bm :: toCreate) toDelete) =>
          set_store (bookmarks_create (or_else (bm_title bm) (bm_url bm)) (bm_url bm)
                       (sch_store s))
            (set_passes (<[k := Applying toCreate toDelete]> (passes s)) s)
      | Some (Applying [] (node :: toDelete)) =>
          set_store (bookmarks_remove (node_id node) (sch_store s))
            (set_passes (<[k := Applying [] toDelete]> (passes s)) s)
      | Some (Applying [] []) => set_passes (delete k (passes s)) s
      | _ => s
      end
  end.

Definition run (inputs : list Input) (s : Scheduler) : Scheduler :=
  foldl (λ s i, step i s) s inputs.

(** The passes that are inside their loops. *)
Definition is_applying (p : Pass) : bool :=
  match p with
  | Fetching => false
  | Applying _ _ => true
  end.

Definition applying (s : Scheduler) : list Pass :=
  filter (λ p, is_applying p) (passes s).

(** ** What an attempt leaves behind *)

(** The error that a failed attempt throws inside the [try]. *)
Definition error_of (o : Outcome) : Error :=
  match o with
  | Rejects => TypeError
  | Resolves res =>
      if client_error (status res) then ClientError (status res)
      else ServerReturned (status res)
  end.

(** The world after a failed attempt with retries left: the warning, then
    the wait. *)
Definition backed_off (req : Request) (retries : nat) (backoff : Z) (w : World) : World :=
  log (EvTimeout backoff) (log (EvWarn backoff retries) (fetched req w)).

(** ** Concrete worlds *)

(** A network that answers the n-th fetch with the n-th outcome of a list,
    and rejects once the list is used up. *)
Definition scripted (outcomes : list Outcome) : nat → Request → Outcome :=
  λ n _, default Rejects (outcomes !! n).

(** A response with a status and a null body. *)
Definition respond (st : Z) : Response := mkResponse st JNull.

(** A response with status 200 and an array of records. *)
Definition respond_with (records : list BookmarkRecord) : Response :=
  mkResponse 200 (JArray records).

Definition leaf (id : nat) (title url : string) : NativeNode := mkNode id title url [].

Definition settings_on : Settings :=
  mkSettings (Some "http://srv") (Some "k") true (Some [mkHeader "X-A" "1"; mkHeader "" "z"]).

(** The forest of the browser: a root with two folders. *)
Definition store_yz : Store :=
  mkStore
    [mkNode 0 "" ""
       [mkNode 1 "Bookmarks bar" "" [leaf 3 "Y" "http://y"];
        mkNode 2 "Other bookmarks" "" [leaf 4 "Z" "http://z"]]]
    5.

Definition world_of (settings : Settings) (store : Store) (outcomes : list Outcome) : World :=
  mkWorld settings true store (scripted outcomes) 0 [].

Definition some_request : Request :=
  mkRequest GET (mkUrl "/bookmarks/sync" "http://srv" []) ∅ None.

(** The creations and removals in a trace. *)
Definition is_change (e : Event) : bool :=
  match e with
  | EvCreate _ _ | EvRemove _ => true
  | _ => false
  end.

Definition changes (t : list Event) : list Event := List.filter is_change t.

(** The world after [create] for each record, and after [remove] for each
    node, in order. *)
Definition created (bms : list BookmarkRecord) (w : World) : World :=
  foldl (λ w bm,
           log (EvCreate (or_else (bm_title bm) (bm_url bm)) (bm_url bm))
             (stored (bookmarks_create (or_else (bm_title bm) (bm_url bm)) (bm_url bm)) w))
        w bms.

Definition removed (nodes : list NativeNode) (w : World) : World :=
  foldl (λ w node, log (EvRemove (node_id node)) (stored (bookmarks_remove (node_id node)) w))
        w nodes.

(** The fetch of the remote collection by a Mirror pass. *)
Definition mirror_fetch (w : World) : Result Response * World :=
  fetchWithRetry (syncRequest (storage w) (autoSyncHeaders (storage w)))
    default_retries default_backoff w.

(** The ids of the nodes that the traversal pushes. *)
Definition leaf_ids (nodes : list NativeNode) : list nat :=
  node_id <$> traverseNodes nodes.

(** A network that gives the same outcome to every fetch. *)
Definition always (o : Outcome) : nat → Request → Outcome := λ _ _, o.

Definition world_always (settings : Settings) (store : Store) (o : Outcome) : World :=
  mkWorld settings true store (always o) 0 [].

(** The fetch of the remote collection by the Pull-Merge handler. *)
Definition pull_fetch (w : World) : Result Response * World :=
  fetchWithRetry (syncRequest (storage w) (buildHeaders (storage w) false))
    default_retries default_backoff w.

(** The nodes that [create] attaches for a list of records, the first one
    with id [k]. *)
Fixpoint new_leaves (k : nat) (bms : list BookmarkRecord) : list NativeNode :=
  match bms with
  | [] => []
  | bm :: rest =>
      mkNode k (or_else (bm_title bm) (bm_url bm)) (bm_url bm) [] :: new_leaves (S k) rest
  end.

(** What the guards of the two handlers of options.js let through. *)
Definition handler_ready (w : World) : bool :=
  truthy_opt (backendUrl (storage w)) && has_bookmarks w.






(** Settings with no backend url, and settings whose extra header is named
    like the credential header. *)
Definition settings_unset : Settings := mkSettings None (Some "k") true None.


(** The worker before anything has run, with auto-sync saved in the
    settings. *)
Definition scheduler_on : Scheduler :=
  mkScheduler None ∅ 1 [] settings_on true store_yz.

(** The remote collection of the scenario: x and y. *)
Definition remote_xy : list BookmarkRecord :=
  [mkBookmark "http://x" ""; mkBookmark "http://y" ""].

(** At most the timer that [syncIntervalId] names is registered. *)
Definition one_timer (s : Scheduler) : Prop :=
  intervals s = match syncIntervalId s with
                | Some i => {[i]}
                | None => ∅
                end.

(** ** Well-formed stores *)

(** Every node of a forest, a node before its children. *)
Fixpoint all_nodes_of (n : NativeNode) : list NativeNode :=
  n :: flat_map all_nodes_of (node_children n).

Definition all_nodes (nodes : list NativeNode) : list NativeNode :=
  flat_map all_nodes_of nodes.

(** A node is a bookmark or a folder: one that has a url has no children,
    and so down the tree. *)
Fixpoint leaf_or_folder (n : NativeNode) : bool :=
  match node_children n with
  | [] => true
  | _ => negb (truthy (node_url n))
  end && forallb leaf_or_folder (node_children n).

(** The store of a browser: bookmarks and folders, no id used twice, and
    every id below the next free one. *)
Record wf_store (s : Store) : Prop := mk_wf_store {
  wf_shape : forallb leaf_or_folder (tree s) = true;
  wf_nodup : NoDup (node_id <$> all_nodes (tree s));
  wf_fresh : Forall (λ n, node_id n < next_id s)%nat (all_nodes (tree s))
}.

(** ** options.js: saving the settings *)

(** What the options page holds when a button is clicked: the two text
    fields, the checkbox and the rows of the header editor (key and value
    of each [.header-row]). *)
Record Form := mkForm {
  backendUrlInput : string;
  apiKeyInput : string;
  autoSyncCheckbox : bool;
  headerRows : list (string * string)
}.

Section Options.

(** [String.prototype.trim], the browser's. *)
Variable trim : string → string.

(** The loop over the rows (lines 273-280, and 68-75): a row is saved
    when its trimmed key is not empty. *)
Definition collectHeaders (rows : list (string * string)) : list Header :=
  omap (λ row,
          let key := trim row.1 in
          let value := trim row.2 in
          if truthy key then Some (mkHeader key value) else None)
       rows.

(** The object that the click handler of [saveBtn] passes to
    [chrome.storage.sync.set] (lines 268-282). *)
Definition savedSettings (form : Form) : Settings :=
  mkSettings (Some (trim (backendUrlInput form)))
             (Some (trim (apiKeyInput form)))
             (autoSyncCheckbox form)
             (Some (collectHeaders (headerRows form))).

(** The click on [saveBtn], seen from the worker: the settings are
    stored, then the message [SYNC_SETTINGS_CHANGED] arrives with the
    checkbox. *)
Definition saveClick (form : Form) (s : Scheduler) : Scheduler :=
  step (Message (autoSyncCheckbox form))
    (mkScheduler (syncIntervalId s) (intervals s) (next_interval s) (passes s)
       (savedSettings form) (sch_has_bookmarks s) (sch_store s)).

End Options.

(** ** popup.js and results.js: the tag chips *)

(** What can happen to [currentTagsList]: Enter or a comma typed in the
    field (with the field's value), Backspace (with the field's value), the
    field losing the focus, a click on the cross of the chip at an index,
    the tags of the bookmark that the popup found for the current page
    (popup.js lines 130-137), and the deletion of that bookmark (line 248). *)
Inductive TagEvent :=
| KeyEnterOrComma (value : string)
| KeyBackspace (value : string)
| Blur (value : string)
| RemoveChip (index : nat)
| ExistingTags (tags : list string)
| BookmarkDeleted.

Definition is_existing (e : TagEvent) : bool :=
  match e with
  | ExistingTags _ => true
  | _ => false
  end.

(** [value.split(',')]: the pieces between the commas, at least one. *)
Fixpoint split_comma (value : string) : list string :=
  match value with
  | EmptyString => [""]
  | String c rest =>
      if String.eqb (String c "") "," then "" :: split_comma rest
      else match split_comma rest with
           | piece :: pieces => String c piece :: pieces
           | [] => [String c ""]
           end
  end.

(** [tags.join(',')]. *)
Definition join_comma (tags : list string) : string := String.concat "," tags.

Fixpoint comma_free (s : string) : bool :=
  match s with
  | EmptyString => true
  | String c rest => negb (String.eqb (String c "") ",") && comma_free rest
  end.

Section Tags.

(** [String.prototype.trim] and [String.prototype.toLowerCase], the
    browser's. *)
Variable trim : string → string.
Variable toLowerCase : string → string.

(** [addTag(val)]. *)
Definition addTag (val : string) (currentTagsList : list string) : list string :=
  let cleaned := toLowerCase (trim val) in
  if truthy cleaned && negb (bool_decide (cleaned ∈ currentTagsList))
  then currentTagsList ++ [cleaned]
  else currentTagsList.

(** The loop of popup.js lines 131-135. *)
Definition mergeTags (tags : list string) (currentTagsList : list string) : list string :=
  foldl (λ l t, if bool_decide (t ∈ l) then l else l ++ [t]) currentTagsList tags.

(** The listeners on the tag field and on the chips. *)
Definition tag_step (e : TagEvent) (currentTagsList : list string) : list string :=
  match e with
  | KeyEnterOrComma value => addTag value currentTagsList
  | KeyBackspace value =>
      if String.eqb value "" && Nat.ltb 0 (length currentTagsList)
      then removelast currentTagsList
      else currentTagsList
  | Blur value =>
      if truthy (trim value) then addTag value currentTagsList else currentTagsList
  | RemoveChip index => delete index currentTagsList
  | ExistingTags tags => mergeTags tags currentTagsList
  | BookmarkDeleted => []
  end.

Definition tags_after (events : list TagEvent) : list string :=
  foldl (λ l e, tag_step e l) [] events.

(** [tagInput.value.split(',').map(t => t.trim()).filter(t => t.length > 0)]
    (popup.js line 187). *)
Definition typedTags (value : string) : list string :=
  filter (λ t, t ≠ "") (trim <$> split_comma value).

End Tags.

(** ** popup.js: saving the current page *)




Section Popup.

Variable trim : string → string.


End Popup.

(** * Properties *)

(** ** The transport *)

Ltac unfold_js :=
  unfold mbind, Js_bind, bind, try_catch, throw, ret, emit, setTimeout,
    getSettings, chrome_bookmarks, getTree, with_store, showSyncStatus in *.

Lemma attempt_ok req retries backoff w res :
  network w (fetches w) req = Resolves res → ok res = true →
  fetchWithRetry req retries backoff w = (Ok res, fetched req w).
Proof.
  intros Hnet Hok. destruct retries; simpl; unfold_js; unfold fetch;
    rewrite Hnet, Hok; reflexivity.
Qed.

Lemma attempt_retry req retries backoff w :
  failed (network w (fetches w) req) = true →
  fetchWithRetry req (S retries) backoff w
  = fetchWithRetry req retries (backoff * 2) (backed_off req (S retries) backoff w).
Proof.
  intros Hfail. simpl. unfold_js. unfold fetch.
  destruct (network w (fetches w) req) as [|res]; [reflexivity|].
  simpl in Hfail. destruct (ok res); [discriminate|]. simpl.
  destruct (client_error (status res)); reflexivity.
Qed.

Lemma attempt_last req backoff w :
  failed (network w (fetches w) req) = true →
  fetchWithRetry req 0 backoff w
  = (Throw (error_of (network w (fetches w) req)), fetched req w).
Proof.
  intros Hfail. simpl. unfold_js. unfold fetch.
  destruct (network w (fetches w) req) as [|res]; [reflexivity|].
  simpl in Hfail. destruct (ok res); [discriminate|]. simpl.
  destruct (client_error (status res)); reflexivity.
Qed.

Lemma failed_or_ok (o : Outcome) :
  failed o = true ∨ ∃ res, o = Resolves res ∧ ok res = true.
Proof.
  destruct o as [|res]; simpl; [by left|].
  destruct (ok res) eqn:E; [right; eauto | by left].
Qed.

Lemma retryable_failed o : retryable o = true → failed o = true.
Proof.
  destruct o as [|res]; simpl; [done|]. by intros [? _]%andb_prop.
Qed.

Lemma timeouts_app t1 t2 : timeouts (t1 ++ t2) = timeouts t1 ++ timeouts t2.
Proof. apply omap_app. Qed.

Lemma requests_app t1 t2 : requests (t1 ++ t2) = requests t1 ++ requests t2.
Proof. apply omap_app. Qed.

Lemma messages_app t1 t2 : messages (t1 ++ t2) = messages t1 ++ messages t2.
Proof. apply omap_app. Qed.

Lemma sum_app (l1 l2 : list Z) :
  foldr Z.add 0 (l1 ++ l2) = foldr Z.add 0 l1 + foldr Z.add 0 l2.
Proof. induction l1 as [|x l1 IH]; simpl; lia. Qed.

Lemma waited_timeouts t1 t2 zs :
  timeouts t2 = timeouts t1 ++ zs → waited t2 = waited t1 + foldr Z.add 0 zs.
Proof. unfold waited. intros ->. apply sum_app. Qed.

(** A call whose first [k] attempts fail and whose next attempt gives an ok
    response returns that response after [k + 1] fetches and the waits
    [backoff], [2 * backoff], ... *)
Lemma fetchWithRetry_succeeds req k : ∀ retries backoff w res,
  (k ≤ retries)%nat →
  (∀ i, (i < k)%nat → failed (network w (fetches w + i) req) = true) →
  network w (fetches w + k) req = Resolves res → ok res = true →
  (fetchWithRetry req retries backoff w).1 = Ok res
  ∧ fetches (fetchWithRetry req retries backoff w).2 = (fetches w + k + 1)%nat
  ∧ timeouts (trace (fetchWithRetry req retries backoff w).2)
    = timeouts (trace w) ++ backoffs k backoff.
Proof.
  induction k as [|k IH]; intros retries backoff w res Hk Hfail Hnet Hok.
  - rewrite Nat.add_0_r in Hnet. rewrite (attempt_ok _ _ _ _ _ Hnet Hok). simpl.
    rewrite timeouts_app, app_nil_r. simpl. split_and!; [done|lia|by rewrite app_nil_r].
  - destruct retries as [|retries]; [lia|].
    rewrite attempt_retry by (rewrite <- (Nat.add_0_r (fetches w)); apply Hfail; lia).
    destruct (IH retries (backoff * 2) (backed_off req (S retries) backoff w) res)
      as (Hres & Hfetches & Htimeouts); simpl.
    + lia.
    + intros i Hi. replace (S (fetches w + i))%nat with (fetches w + S i)%nat by lia.
      apply Hfail. lia.
    + by replace (S (fetches w + k))%nat with (fetches w + S k)%nat by lia.
    + done.
    + split_and!; [done| simpl in Hfetches; lia |].
      rewrite Htimeouts. simpl. rewrite !timeouts_app. simpl.
      rewrite !app_nil_r, <- app_assoc. done.
Qed.

(** A call whose [retries + 1] attempts all fail throws the error of the
    last one, after all the waits. *)
Lemma fetchWithRetry_exhausted req retries : ∀ backoff w,
  (∀ i, (i ≤ retries)%nat → failed (network w (fetches w + i) req) = true) →
  (fetchWithRetry req retries backoff w).1
  = Throw (error_of (network w (fetches w + retries) req))
  ∧ fetches (fetchWithRetry req retries backoff w).2 = (fetches w + retries + 1)%nat
  ∧ timeouts (trace (fetchWithRetry req retries backoff w).2)
    = timeouts (trace w) ++ backoffs retries backoff.
Proof.
  induction retries as [|retries IH]; intros backoff w Hfail.
  - rewrite attempt_last by (rewrite <- (Nat.add_0_r (fetches w)); apply Hfail; lia).
    rewrite Nat.add_0_r. simpl. rewrite timeouts_app. simpl.
    rewrite !app_nil_r. split_and!; [done | lia | done].
  - rewrite attempt_retry by (rewrite <- (Nat.add_0_r (fetches w)); apply Hfail; lia).
    destruct (IH (backoff * 2) (backed_off req (S retries) backoff w))
      as (Hres & Hfetches & Htimeouts).
    + intros i Hi. simpl.
      replace (S (fetches w + i))%nat with (fetches w + S i)%nat by lia.
      apply Hfail. lia.
    + rewrite Hres, Hfetches, Htimeouts. simpl. rewrite !timeouts_app. simpl.
      rewrite !app_nil_r, <- app_assoc.
      replace (S (fetches w + retries))%nat with (fetches w + S retries)%nat by lia.
      split_and!; [done | lia | done].
Qed.

(** C4. On a retryable failure with retries left, [fetchWithRetry] waits
    [backoff] milliseconds and calls itself with [retries - 1] and
    [backoff * 2]; the waits of the default call are 1000, 2000, 4000; a call
    whose first [k] attempts fail this way and whose next attempt gives an ok
    response returns that response, having waited [backoff], [2 * backoff],
    ... ([k] waits: 1000 + 2000 for two 503s with the defaults). *)
Theorem fetchWithRetry_backoff (req : Request) (w : World) (retries k : nat)
    (backoff : Z) (res : Response) :
  (k ≤ retries)%nat →
  (∀ i, (i < k)%nat → retryable (network w (fetches w + i) req) = true) →
  network w (fetches w + k) req = Resolves res →
  ok res = true →
  let r := fetchWithRetry req retries backoff w in
  r.1 = Ok res
  ∧ fetches r.2 = (fetches w + k + 1)%nat
  ∧ timeouts (trace r.2) = timeouts (trace w) ++ backoffs k backoff
  ∧ waited (trace r.2) = waited (trace w) + foldr Z.add 0 (backoffs k backoff)
  ∧ backoffs default_retries default_backoff = [1000; 2000; 4000]
  ∧ ((0 < k)%nat → ∀ n,
       fetchWithRetry req (S n) backoff w
       = fetchWithRetry req n (backoff * 2)
           (log (EvTimeout backoff) (log (EvWarn backoff (S n)) (fetched req w)))).
Proof.
  intros Hk Hfail Hnet Hok r.
  destruct (fetchWithRetry_succeeds req k retries backoff w res)
    as (Hres & Hfetches & Htimeouts); auto using retryable_failed.
  split_and!; try done.
  - by apply waited_timeouts.
  - intros Hpos n. apply attempt_retry, retryable_failed.
    rewrite <- (Nat.add_0_r (fetches w)). by apply Hfail.
Qed.

Lemma fetchWithRetry_backoff_witness :
  let w := world_of settings_on store_yz
             [Resolves (respond 503); Resolves (respond 503); Resolves (respond 200)] in
  let r := fetchWithRetry some_request default_retries default_backoff w in
  r.1 = Ok (respond 200)
  ∧ fetches r.2 = 3%nat
  ∧ timeouts (trace r.2) = [1000; 2000]
  ∧ waited (trace r.2) = 3000.
Proof.
  intros w r.
  destruct (fetchWithRetry_backoff some_request w default_retries 2 default_backoff
              (respond 200)) as (H1 & H2 & H3 & H4 & _).
  - unfold default_retries. lia.
  - intros [|[|i]] Hi; [reflexivity | reflexivity | lia].
  - reflexivity.
  - reflexivity.
  - split_and!; [exact H1 | exact H2 | exact H3 | exact H4].
Defined.

(** C3 (the code departs from the claim). With the default arguments a call
    that only ever receives 404 makes four fetches and waits 1000, 2000 and
    4000 ms before it throws the client error: the [throw] of line 32 is
    inside the [try], so the [catch] of line 37 retries it like any other
    failure. *)
Theorem fetchWithRetry_retries_404 :
  let w := world_of settings_on store_yz (replicate 4 (Resolves (respond 404))) in
  let r := fetchWithRetry some_request default_retries default_backoff w in
  client_error 404 = true
  ∧ r.1 = Throw (ClientError 404)
  ∧ requests (trace r.2) = replicate 4 some_request
  ∧ timeouts (trace r.2) = [1000; 2000; 4000].
Proof. vm_compute. done. Qed.

(** With no retry left the client error is thrown at once. *)
Lemma client_error_last req backoff w res :
  network w (fetches w) req = Resolves res → client_error (status res) = true →
  ok res = false →
  fetchWithRetry req 0 backoff w = (Throw (ClientError (status res)), fetched req w).
Proof.
  intros Hnet Hc Hok. rewrite attempt_last by (rewrite Hnet; simpl; by rewrite Hok).
  rewrite Hnet. simpl. by rewrite Hc.
Qed.

Lemma changes_app t1 t2 : changes (t1 ++ t2) = changes t1 ++ changes t2.
Proof. apply List.filter_app. Qed.

(** What [fetchWithRetry] leaves alone: settings, store and network. *)
Lemma fetchWithRetry_frame req retries : ∀ backoff w,
  storage (fetchWithRetry req retries backoff w).2 = storage w
  ∧ has_bookmarks (fetchWithRetry req retries backoff w).2 = has_bookmarks w
  ∧ bookmarks (fetchWithRetry req retries backoff w).2 = bookmarks w
  ∧ network (fetchWithRetry req retries backoff w).2 = network w.
Proof.
  induction retries as [|retries IH]; intros backoff w;
    destruct (failed_or_ok (network w (fetches w) req)) as [Hf|(res & Hnet & Hok)];
    try (rewrite (attempt_ok _ _ _ _ _ Hnet Hok); done).
  - rewrite attempt_last by done. done.
  - rewrite attempt_retry by done.
    destruct (IH (backoff * 2) (backed_off req (S retries) backoff w))
      as (-> & -> & -> & ->). done.
Qed.

(** A response that [fetchWithRetry] returns is ok: the callers' test
    [if (!res.ok) throw ...] never fires. *)
Lemma fetchWithRetry_returns_ok req retries : ∀ backoff w res,
  (fetchWithRetry req retries backoff w).1 = Ok res → ok res = true.
Proof.
  induction retries as [|retries IH]; intros backoff w res;
    destruct (failed_or_ok (network w (fetches w) req)) as [Hf|(res' & Hnet & Hok)];
    try (rewrite (attempt_ok _ _ _ _ _ Hnet Hok); simpl; congruence).
  - rewrite attempt_last by done. done.
  - rewrite attempt_retry by done. apply IH.
Qed.

(** The trace of a call: between one and [retries + 1] fetches of the same
    request, no message, no change of the store. *)
Lemma fetchWithRetry_trace req retries : ∀ backoff w,
  ∃ k, (1 ≤ k ≤ S retries)%nat
  ∧ requests (trace (fetchWithRetry req retries backoff w).2)
    = requests (trace w) ++ replicate k req
  ∧ messages (trace (fetchWithRetry req retries backoff w).2) = messages (trace w)
  ∧ changes (trace (fetchWithRetry req retries backoff w).2) = changes (trace w).
Proof.
  induction retries as [|retries IH]; intros backoff w;
    destruct (failed_or_ok (network w (fetches w) req)) as [Hf|(res & Hnet & Hok)];
    try (rewrite (attempt_ok _ _ _ _ _ Hnet Hok); exists 1%nat; simpl;
         rewrite requests_app, messages_app, changes_app; simpl;
         rewrite !app_nil_r; split_and!; [lia|lia|done..]).
  - rewrite attempt_last by done. exists 1%nat. simpl.
    rewrite requests_app, messages_app, changes_app; simpl.
    rewrite !app_nil_r; split_and!; [lia|lia|done..].
  - rewrite attempt_retry by done.
    destruct (IH (backoff * 2) (backed_off req (S retries) backoff w))
      as (k & Hk & Hreq & Hmsg & Hch).
    exists (S k). rewrite Hreq, Hmsg, Hch. simpl.
    rewrite !requests_app, !messages_app, !changes_app. simpl.
    rewrite !app_nil_r, <- app_assoc. split_and!; [lia|lia|done..].
Qed.

(** ** The loops of the Mirror pass *)

Lemma create_loop (urls : gset string) remote : ∀ w,
  for_of remote (λ bm,
    if negb (bool_decide (bm_url bm ∈ urls))
    then create (or_else (bm_title bm) (bm_url bm)) (bm_url bm)
    else ret tt) w
  = (Ok tt, created (filter (λ bm, bm_url bm ∉ urls) remote) w).
Proof.
  induction remote as [|bm remote IH]; intros w; [reflexivity|].
  rewrite filter_cons. simpl. unfold_js. unfold create. unfold_js.
  destruct (decide (bm_url bm ∈ urls)) as [Hin|Hin].
  - rewrite bool_decide_eq_true_2 by done. simpl.
    rewrite decide_False by (by intros ?). apply IH.
  - rewrite bool_decide_eq_false_2 by done. simpl.
    rewrite decide_True by done. apply IH.
Qed.

Lemma remove_loop (urls : gset string) nodes : ∀ w,
  for_of nodes (λ node,
    if negb (bool_decide (node_url node ∈ urls))
    then remove (node_id node)
    else ret tt) w
  = (Ok tt, removed (filter (λ node, node_url node ∉ urls) nodes) w).
Proof.
  induction nodes as [|node nodes IH]; intros w; [reflexivity|].
  rewrite filter_cons. simpl. unfold_js. unfold remove. unfold_js.
  destruct (decide (node_url node ∈ urls)) as [Hin|Hin].
  - rewrite bool_decide_eq_true_2 by done. simpl.
    rewrite decide_False by (by intros ?). apply IH.
  - rewrite bool_decide_eq_false_2 by done. simpl.
    rewrite decide_True by done. apply IH.
Qed.

Lemma created_spec bms : ∀ w,
  bookmarks (created bms w) = create_all bms (bookmarks w)
  ∧ trace (created bms w) = trace w ++ create_events bms
  ∧ storage (created bms w) = storage w
  ∧ fetches (created bms w) = fetches w.
Proof.
  induction bms as [|bm bms IH]; intros w; simpl.
  - by rewrite app_nil_r.
  - destruct (IH (log (EvCreate (or_else (bm_title bm) (bm_url bm)) (bm_url bm))
                   (stored (bookmarks_create (or_else (bm_title bm) (bm_url bm)) (bm_url bm)) w)))
      as (Hb & Ht & Hs & Hf).
    unfold created in *. rewrite Hb, Ht, Hs, Hf. simpl. by rewrite <- app_assoc.
Qed.

Lemma removed_spec nodes : ∀ w,
  bookmarks (removed nodes w) = remove_all nodes (bookmarks w)
  ∧ trace (removed nodes w) = trace w ++ remove_events nodes
  ∧ storage (removed nodes w) = storage w
  ∧ fetches (removed nodes w) = fetches w.
Proof.
  induction nodes as [|node nodes IH]; intros w; simpl.
  - by rewrite app_nil_r.
  - destruct (IH (log (EvRemove (node_id node)) (stored (bookmarks_remove (node_id node)) w)))
      as (Hb & Ht & Hs & Hf).
    unfold removed in *. rewrite Hb, Ht, Hs, Hf. simpl. by rewrite <- app_assoc.
Qed.

(** ** The Mirror pass *)

(** A pass that fetches an array of records creates what the plan says, then
    removes what the plan says, and logs its completion. *)
Lemma performAutoSync_applies_plan w res remote :
  skip_sync (storage w) (has_bookmarks w) = false →
  (mirror_fetch w).1 = Ok res →
  body res = JArray remote →
  performAutoSync w
  = (Ok tt,
     log EvLog
       (removed (toDeleteLocally remote (tree (bookmarks w)))
          (created (toCreateLocally remote (tree (bookmarks w))) (mirror_fetch w).2))).
Proof.
  intros Hguard Hres Hbody.
  pose proof (fetchWithRetry_returns_ok _ _ _ _ _ Hres) as Hok.
  destruct (fetchWithRetry_frame (syncRequest (storage w) (autoSyncHeaders (storage w)))
              default_retries default_backoff w) as (_ & _ & Hb & _).
  unfold performAutoSync, mirror_fetch in *. unfold_js. rewrite Hguard.
  destruct (fetchWithRetry _ _ _ w) as [r w1]. simpl in *. subst r.
  rewrite Hok. simpl. unfold json. rewrite Hbody. unfold_js. rewrite Hb.
  rewrite create_loop. rewrite remove_loop. reflexivity.
Qed.

(** A pass whose fetch throws logs the error and does nothing else. *)
Lemma performAutoSync_fetch_throws w e :
  skip_sync (storage w) (has_bookmarks w) = false →
  (mirror_fetch w).1 = Throw e →
  performAutoSync w = (Ok tt, log (EvError e) (mirror_fetch w).2).
Proof.
  intros Hguard Hres. unfold performAutoSync, mirror_fetch in *. unfold_js.
  rewrite Hguard. destruct (fetchWithRetry _ _ _ w) as [r w1]. simpl in *.
  by subst r.
Qed.

(** A pass that the guard stops does nothing at all. *)
Lemma performAutoSync_skipped w :
  skip_sync (storage w) (has_bookmarks w) = true → performAutoSync w = (Ok tt, w).
Proof. intros Hguard. unfold performAutoSync. unfold_js. by rewrite Hguard. Qed.

(** ** Removing nodes from the tree *)

Lemma NativeNode_forest_ind (P : NativeNode → Prop) :
  (∀ id title url children, Forall P children → P (mkNode id title url children)) →
  ∀ n, P n.
Proof.
  intros Hnode. fix IH 1. intros [id title url children]. apply Hnode.
  induction children as [|c children IHc]; constructor; [apply IH | apply IHc].
Qed.

Lemma leaf_ids_app t1 t2 : leaf_ids (t1 ++ t2) = leaf_ids t1 ++ leaf_ids t2.
Proof. unfold leaf_ids, traverseNodes. by rewrite flat_map_app, fmap_app. Qed.

Lemma leaf_ids_cons n t : leaf_ids (n :: t) = leaf_ids [n] ++ leaf_ids t.
Proof. apply (leaf_ids_app [n] t). Qed.

Lemma leaf_ids_node id title url children :
  leaf_ids [mkNode id title url children]
  = (if truthy url then [id] else []) ++ leaf_ids children.
Proof.
  unfold leaf_ids, traverseNodes. simpl. rewrite app_nil_r, fmap_app.
  by destruct (truthy url).
Qed.

(** After [prune i] the pushed nodes carry ids that were there before and
    differ from [i]. *)
Lemma prune_leaf_ids i n :
  ∀ j, j ∈ leaf_ids (prune i n) → j ∈ leaf_ids [n] ∧ j ≠ i.
Proof.
  induction n as [id title url children IH] using NativeNode_forest_ind.
  intros j. simpl. destruct (Nat.eqb_spec id i) as [->|Hne].
  - intros Hin. by apply elem_of_nil in Hin.
  - rewrite !leaf_ids_node. rewrite !elem_of_app. intros [Hin|Hin].
    + split; [by left|]. destruct (truthy url); [|by apply elem_of_nil in Hin].
      apply list_elem_of_singleton in Hin. by subst.
    + assert (j ∈ leaf_ids children ∧ j ≠ i) as [? ?]; [|split; [by right|done]].
      clear Hne. induction IH as [|c children Hc _ IHcs]; simpl in Hin.
      * by apply elem_of_nil in Hin.
      * rewrite leaf_ids_app in Hin. rewrite leaf_ids_cons.
        rewrite elem_of_app in *. destruct Hin as [Hin|Hin].
        -- destruct (Hc j Hin). split; [by left|done].
        -- destruct (IHcs Hin). split; [by right|done].
Qed.

Lemma prune_forest_leaf_ids i t :
  ∀ j, j ∈ leaf_ids (flat_map (prune i) t) → j ∈ leaf_ids t ∧ j ≠ i.
Proof.
  induction t as [|n t IH]; intros j; simpl.
  - intros Hin. by apply elem_of_nil in Hin.
  - rewrite leaf_ids_app, (leaf_ids_cons n t), !elem_of_app. intros [Hin|Hin].
    + destruct (prune_leaf_ids i n j Hin). split; [by left|done].
    + destruct (IH j Hin). split; [by right|done].
Qed.

Lemma remove_all_leaf_ids nodes : ∀ s j,
  j ∈ leaf_ids (tree (remove_all nodes s)) →
  j ∈ leaf_ids (tree s) ∧ j ∉ (node_id <$> nodes).
Proof.
  induction nodes as [|n nodes IH]; intros s j Hin; simpl in *.
  - split; [done|]. apply not_elem_of_nil.
  - apply IH in Hin as [Hin Hnot]. simpl in Hin.
    apply prune_forest_leaf_ids in Hin as [Hin Hne].
    split; [done|]. rewrite not_elem_of_cons. done.
Qed.

(** Removing every pushed node leaves nothing for the traversal to push. *)
Lemma remove_all_leaves s :
  traverseNodes (tree (remove_all (traverseNodes (tree s)) s)) = [].
Proof.
  destruct (traverseNodes (tree (remove_all _ s))) as [|n rest] eqn:E; [done|].
  exfalso.
  destruct (remove_all_leaf_ids (traverseNodes (tree s)) s (node_id n)) as [Hin Hnot].
  - unfold leaf_ids. rewrite E. simpl. left.
  - apply Hnot, Hin.
Qed.

Lemma changes_create_events bms : changes (create_events bms) = create_events bms.
Proof. induction bms as [|bm bms IH]; simpl; [done|]. by f_equal. Qed.

Lemma changes_remove_events nodes : changes (remove_events nodes) = remove_events nodes.
Proof. induction nodes as [|n nodes IH]; simpl; [done|]. by f_equal. Qed.

Lemma mirror_fetch_frame w :
  storage (mirror_fetch w).2 = storage w
  ∧ bookmarks (mirror_fetch w).2 = bookmarks w
  ∧ changes (trace (mirror_fetch w).2) = changes (trace w)
  ∧ messages (trace (mirror_fetch w).2) = messages (trace w).
Proof.
  unfold mirror_fetch.
  destruct (fetchWithRetry_frame (syncRequest (storage w) (autoSyncHeaders (storage w)))
              default_retries default_backoff w) as (Hs & _ & Hb & _).
  destruct (fetchWithRetry_trace (syncRequest (storage w) (autoSyncHeaders (storage w)))
              default_retries default_backoff w) as (k & _ & _ & Hm & Hc).
  done.
Qed.

(** C1. A Mirror pass whose fetch of the remote collection throws (a
    rejected fetch or a bad status on the last attempt) ends there: the error
    is logged, the local store is the one it started with, and the trace
    gains no creation and no removal. *)
Theorem mirror_fail_closed (w : World) (e : Error) :
  skip_sync (storage w) (has_bookmarks w) = false →
  (mirror_fetch w).1 = Throw e →
  bookmarks (performAutoSync w).2 = bookmarks w
  ∧ changes (trace (performAutoSync w).2) = changes (trace w)
  ∧ performAutoSync w = (Ok tt, log (EvError e) (mirror_fetch w).2).
Proof.
  intros Hguard Hthrow. rewrite (performAutoSync_fetch_throws w e Hguard Hthrow).
  destruct (mirror_fetch_frame w) as (_ & Hb & Hc & _). simpl.
  rewrite changes_app, Hc. simpl. by rewrite app_nil_r.
Qed.

Lemma mirror_fail_closed_witness :
  let w := world_always settings_on store_yz (Resolves (respond 503)) in
  bookmarks (performAutoSync w).2 = store_yz
  ∧ changes (trace (performAutoSync w).2) = []
  ∧ performAutoSync w = (Ok tt, log (EvError (ServerReturned 503)) (mirror_fetch w).2).
Proof.
  intros w. apply (mirror_fail_closed w (ServerReturned 503)); reflexivity.
Defined.

(** A rejected fetch (no connection) on every attempt: the same. *)
Example rejected_fetch_keeps_store :
  let w := world_always settings_on store_yz Rejects in
  bookmarks (performAutoSync w).2 = store_yz
  ∧ timeouts (trace (performAutoSync w).2) = [1000; 2000; 4000]
  ∧ last (trace (performAutoSync w).2) = Some (EvError TypeError).
Proof. vm_compute. done. Qed.

(** C2. In the plan of a Mirror pass (the records that the first loop
    creates and the nodes that the second loop removes, see
    [performAutoSync_applies_plan]) no url is both the url of a record to
    create and the url of a node to delete, whatever the remote collection
    and the local tree. *)
Theorem mirror_plan_disjoint (remote : list BookmarkRecord) (nodes : list NativeNode) :
  (bm_url <$> toCreateLocally remote nodes) ## (node_url <$> toDeleteLocally remote nodes).
Proof.
  intros u Hcreate Hdelete.
  apply list_elem_of_fmap in Hcreate as (bm & -> & Hbm).
  apply list_elem_of_fmap in Hdelete as (node & Hu & Hnode).
  apply list_elem_of_filter in Hbm as [_ Hbm].
  apply list_elem_of_filter in Hnode as [Hnode _].
  apply Hnode. rewrite <- Hu. apply elem_of_list_to_set, list_elem_of_fmap. eauto.
Qed.

(** The scenario of the specification: remote x and y, local y and z. *)
Example mirror_plan_scenario :
  let remote := [mkBookmark "http://x" ""; mkBookmark "http://y" ""] in
  toCreateLocally remote (tree store_yz) = [mkBookmark "http://x" ""]
  ∧ toDeleteLocally remote (tree store_yz) = [leaf 4 "Z" "http://z"].
Proof. vm_compute. done. Qed.

Lemma toDeleteLocally_nil nodes : toDeleteLocally [] nodes = traverseNodes nodes.
Proof.
  unfold toDeleteLocally. simpl.
  induction (traverseNodes nodes) as [|n l IH]; [done|].
  rewrite filter_cons, decide_True by set_solver. by rewrite IH.
Qed.

(** C10. A Mirror pass that fetches the empty array goes on to the loops:
    it removes every node that the traversal pushed, so that no leaf is left,
    and logs its completion. Only a null body ends the pass before the tree
    is read. *)
Theorem mirror_empty_remote (w : World) (res : Response) :
  skip_sync (storage w) (has_bookmarks w) = false →
  (mirror_fetch w).1 = Ok res →
  (body res = JArray [] →
     changes (trace (performAutoSync w).2)
     = changes (trace w) ++ remove_events (traverseNodes (tree (bookmarks w)))
     ∧ traverseNodes (tree (bookmarks (performAutoSync w).2)) = []
     ∧ last (trace (performAutoSync w).2) = Some EvLog)
  ∧ (body res = JNull → performAutoSync w = (Ok tt, (mirror_fetch w).2)).
Proof.
  intros Hguard Hres. split; intros Hbody.
  - rewrite (performAutoSync_applies_plan w res [] Hguard Hres Hbody).
    rewrite toDeleteLocally_nil. unfold toCreateLocally. simpl.
    destruct (mirror_fetch_frame w) as (_ & Hb & Hc & _).
    destruct (removed_spec (traverseNodes (tree (bookmarks w))) (mirror_fetch w).2)
      as (Hrb & Hrt & _).
    rewrite Hrb, Hrt, Hb. split_and!.
    + rewrite !changes_app, Hc, changes_remove_events. simpl. by rewrite app_nil_r.
    + apply remove_all_leaves.
    + by rewrite last_snoc.
  - pose proof (fetchWithRetry_returns_ok _ _ _ _ _ Hres) as Hok.
    unfold performAutoSync, mirror_fetch in *. unfold_js. rewrite Hguard.
    destruct (fetchWithRetry _ _ _ w) as [r w1]. simpl in *. subst r.
    rewrite Hok. simpl. unfold json. by rewrite Hbody.
Qed.

Lemma mirror_empty_remote_witness :
  let w := world_of settings_on store_yz [Resolves (respond_with [])] in
  changes (trace (performAutoSync w).2) = [EvRemove 3; EvRemove 4]
  ∧ traverseNodes (tree (bookmarks (performAutoSync w).2)) = []
  ∧ last (trace (performAutoSync w).2) = Some EvLog.
Proof.
  intros w.
  destruct (mirror_empty_remote w (respond_with [])) as [Hempty _];
    [reflexivity | reflexivity |].
  apply Hempty. reflexivity.
Defined.

Example empty_remote_leaves_folders :
  let w := world_of settings_on store_yz [Resolves (respond_with [])] in
  tree (bookmarks (performAutoSync w).2)
  = [mkNode 0 "" "" [mkNode 1 "Bookmarks bar" "" []; mkNode 2 "Other bookmarks" "" []]].
Proof. vm_compute. done. Qed.

(** The plan that a pass applies, as its trace shows it. *)
Lemma performAutoSync_changes w res remote :
  skip_sync (storage w) (has_bookmarks w) = false →
  (mirror_fetch w).1 = Ok res →
  body res = JArray remote →
  changes (trace (performAutoSync w).2)
  = changes (trace w)
    ++ create_events (toCreateLocally remote (tree (bookmarks w)))
    ++ remove_events (toDeleteLocally remote (tree (bookmarks w)))
  ∧ bookmarks (performAutoSync w).2
    = remove_all (toDeleteLocally remote (tree (bookmarks w)))
        (create_all (toCreateLocally remote (tree (bookmarks w))) (bookmarks w)).
Proof.
  intros Hguard Hres Hbody.
  rewrite (performAutoSync_applies_plan w res remote Hguard Hres Hbody).
  destruct (mirror_fetch_frame w) as (_ & Hb & Hc & _).
  set (cs := toCreateLocally remote (tree (bookmarks w))).
  set (ds := toDeleteLocally remote (tree (bookmarks w))).
  destruct (created_spec cs (mirror_fetch w).2) as (Hcb & Hct & _).
  destruct (removed_spec ds (created cs (mirror_fetch w).2)) as (Hrb & Hrt & _).
  simpl. rewrite Hrb, Hrt, Hcb, Hct, Hb. split; [|done].
  rewrite !changes_app, Hc, changes_create_events, changes_remove_events. simpl.
  by rewrite app_nil_r, app_assoc.
Qed.

(** ** Pull-Merge *)


Lemma create_all_spec bms : ∀ s,
  create_all bms s
  = mkStore (tree s ++ new_leaves (next_id s) bms) (next_id s + length bms).
Proof.
  induction bms as [|bm bms IH]; intros [t k]; simpl.
  - by rewrite app_nil_r, Nat.add_0_r.
  - change (create_all (bm :: bms) (mkStore t k))
      with (create_all bms
              (bookmarks_create (or_else (bm_title bm) (bm_url bm)) (bm_url bm) (mkStore t k))).
    rewrite IH. simpl. by rewrite <- app_assoc, Nat.add_succ_r.
Qed.

Lemma pull_fetch_frame w :
  storage (pull_fetch w).2 = storage w
  ∧ has_bookmarks (pull_fetch w).2 = has_bookmarks w
  ∧ bookmarks (pull_fetch w).2 = bookmarks w
  ∧ changes (trace (pull_fetch w).2) = changes (trace w).
Proof.
  unfold pull_fetch.
  destruct (fetchWithRetry_frame (syncRequest (storage w) (buildHeaders (storage w) false))
              default_retries default_backoff w) as (Hs & Hh & Hb & _).
  destruct (fetchWithRetry_trace (syncRequest (storage w) (buildHeaders (storage w) false))
              default_retries default_backoff w) as (k & _ & _ & _ & Hc).
  done.
Qed.


Lemma traverseNodes_app t1 t2 :
  traverseNodes (t1 ++ t2) = traverseNodes t1 ++ traverseNodes t2.
Proof. unfold traverseNodes. apply flat_map_app. Qed.

Lemma nativeUrls_app t1 t2 : nativeUrls (t1 ++ t2) = nativeUrls t1 ∪ nativeUrls t2.
Proof.
  unfold nativeUrls. rewrite traverseNodes_app, fmap_app.
  apply leibniz_equiv, list_to_set_app.
Qed.

(** The traversal finds the url of every node created for a record with a
    truthy url. *)
Lemma new_leaves_urls bms : ∀ k bm,
  bm ∈ bms → truthy (bm_url bm) = true → bm_url bm ∈ nativeUrls (new_leaves k bms).
Proof.
  induction bms as [|bm' bms IH]; intros k bm Hin Htruthy.
  - by apply elem_of_nil in Hin.
  - change (new_leaves k (bm' :: bms))
      with ([mkNode k (or_else (bm_title bm') (bm_url bm')) (bm_url bm') []]
            ++ new_leaves (S k) bms).
    rewrite nativeUrls_app. apply elem_of_cons in Hin as [->|Hin].
    + apply elem_of_union_l. unfold nativeUrls, traverseNodes. simpl.
      rewrite Htruthy. simpl. set_solver.
    + apply elem_of_union_r. by apply IH.
Qed.




(** ** Push *)

(** From here on the transport is used through its lemmas. *)
Local Arguments fetchWithRetry : simpl never.






(** ** The guards on the backend url *)

(** C8 (as the code has it). With no backend url in the settings, each of
    the three runs ends before any fetch and any wait; Push and Pull-Merge
    show the message that asks for the url, and the Mirror pass, which has no
    page to show it on, returns without a message. *)
Theorem backendUrl_unset_aborts (w : World) :
  truthy_opt (backendUrl (storage w)) = false →
  importBookmarks w = (Ok tt, log (EvStatus SetBackendUrlFirst true) w)
  ∧ syncToNative w = (Ok tt, log (EvStatus SetBackendUrlFirst true) w)
  ∧ performAutoSync w = (Ok tt, w)
  ∧ (∀ run, run ∈ [importBookmarks; syncToNative; performAutoSync] →
       fetches (run w).2 = fetches w
       ∧ requests (trace (run w).2) = requests (trace w)
       ∧ timeouts (trace (run w).2) = timeouts (trace w)
       ∧ bookmarks (run w).2 = bookmarks w).
Proof.
  intros Hunset.
  assert (importBookmarks w = (Ok tt, log (EvStatus SetBackendUrlFirst true) w)) as Hpush.
  { unfold importBookmarks. unfold_js. by rewrite Hunset. }
  assert (syncToNative w = (Ok tt, log (EvStatus SetBackendUrlFirst true) w)) as Hpull.
  { unfold syncToNative. unfold_js. by rewrite Hunset. }
  assert (performAutoSync w = (Ok tt, w)) as Hmirror.
  { apply performAutoSync_skipped. unfold skip_sync. rewrite Hunset. simpl.
    by rewrite orb_true_r. }
  split_and!; try done.
  intros run Hrun. repeat (apply elem_of_cons in Hrun as [->|Hrun]).
  - rewrite Hpush. simpl. by rewrite requests_app, timeouts_app, !app_nil_r.
  - rewrite Hpull. simpl. by rewrite requests_app, timeouts_app, !app_nil_r.
  - by rewrite Hmirror.
  - by apply elem_of_nil in Hrun.
Qed.

Lemma backendUrl_unset_aborts_witness :
  let w := world_of settings_unset store_yz [] in
  messages (trace (importBookmarks w).2) = [(SetBackendUrlFirst, true)]
  ∧ messages (trace (syncToNative w).2) = [(SetBackendUrlFirst, true)]
  ∧ performAutoSync w = (Ok tt, w).
Proof.
  intros w.
  destruct (backendUrl_unset_aborts w) as (Hpush & Hpull & Hmirror & _); [reflexivity|].
  rewrite Hpush, Hpull. split_and!; [reflexivity | reflexivity | exact Hmirror].
Defined.

(** The Mirror pass without a backend url shows no message. *)
Lemma backendUrl_unset_mirror_silent :
  let w := world_of settings_unset store_yz [] in
  truthy_opt (backendUrl (storage w)) = false
  ∧ ¬ ∃ m, m ∈ messages (trace (performAutoSync w).2).
Proof.
  intros w. split; [reflexivity|]. intros [m Hm]. vm_compute in Hm.
  by apply elem_of_nil in Hm.
Qed.

(** ** Headers *)




(** Without a clash of names the headers of the claim are all there. *)
Example buildHeaders_plain :
  buildHeaders settings_on true
  = {[ "Authorization" := "Bearer k"; "Content-Type" := "application/json"; "X-A" := "1" ]}
  ∧ buildHeaders settings_on false
  = {[ "Authorization" := "Bearer k"; "Accept" := "application/json"; "X-A" := "1" ]}.
Proof. split; apply map_eq; intros name; vm_compute; reflexivity. Qed.

(** ** The scheduler *)

Lemma startSync_one_timer s : one_timer s → one_timer (startSync s).
Proof.
  unfold one_timer, startSync, call_performAutoSync, clear_current. intros Hs.
  destruct (skip_sync _ _); simpl; rewrite Hs; destruct (syncIntervalId s); set_solver.
Qed.

Lemma stopSync_one_timer s : one_timer s → one_timer (stopSync s).
Proof.
  unfold one_timer, stopSync, clear_current. intros Hs. simpl. rewrite Hs.
  destruct (syncIntervalId s); set_solver.
Qed.

Lemma step_one_timer i s : one_timer s → one_timer (step i s).
Proof.
  intros Hs. destruct i as [|autoSync|id|k r|k]; simpl.
  - destruct (autoSync (sch_settings s)); [by apply startSync_one_timer|done].
  - destruct autoSync; [by apply startSync_one_timer|by apply stopSync_one_timer].
  - unfold call_performAutoSync. destruct (bool_decide _); [|done].
    by destruct (skip_sync _ _).
  - destruct (passes s !! k) as [[|cs ds]|]; [|done..]. by destruct r.
  - destruct (passes s !! k) as [[|[|bm cs] [|n ds]]|]; done.
Qed.

(** [startSync] cancels the timer it replaces: whatever the worker has been
    through, no more than one interval timer is registered. *)
Lemma run_one_timer inputs : ∀ s, one_timer s → one_timer (run inputs s).
Proof.
  induction inputs as [|i inputs IH]; intros s Hs; [done|].
  apply IH. by apply step_one_timer.
Qed.

(** C7 (as the code has it). A tick of a registered interval timer calls
    [performAutoSync], which tests the settings and the bookmarks API and
    nothing else: when the guard lets it through, the tick starts one more
    Mirror pass, whether or not other passes are in flight. The tick is
    neither dropped nor queued, and the passes in flight, the timers and the
    store are otherwise as they were. *)
Theorem tick_starts_pass (s : Scheduler) (id : nat) :
  id ∈ intervals s →
  skip_sync (sch_settings s) (sch_has_bookmarks s) = false →
  passes (step (Tick id) s) = passes s ++ [Fetching]
  ∧ length (passes (step (Tick id) s)) = S (length (passes s))
  ∧ intervals (step (Tick id) s) = intervals s
  ∧ syncIntervalId (step (Tick id) s) = syncIntervalId s
  ∧ sch_store (step (Tick id) s) = sch_store s.
Proof.
  intros Hid Hguard. simpl. rewrite bool_decide_eq_true_2 by done.
  unfold call_performAutoSync. rewrite Hguard. simpl.
  rewrite length_app. simpl. split_and!; [done | lia | done..].
Qed.

Lemma tick_starts_pass_witness :
  let s := step (FetchSettled 0 (Some remote_xy)) (step (Message true) scheduler_on) in
  passes s = [Applying [mkBookmark "http://x" ""] [leaf 4 "Z" "http://z"]]
  ∧ passes (step (Tick 1) s)
    = [Applying [mkBookmark "http://x" ""] [leaf 4 "Z" "http://z"]; Fetching].
Proof.
  intros s. split; [reflexivity|].
  apply (tick_starts_pass s 1); [vm_compute; set_solver | reflexivity].
Defined.

(** A tick during a pass in flight starts a second pass; both come to apply
    their plans at the same time. *)
Lemma tick_overlaps_pass :
  let s1 := step (Message true) scheduler_on in
  let s2 := step (Tick 1) s1 in
  let s3 := run [FetchSettled 0 (Some remote_xy); FetchSettled 1 (Some remote_xy)] s2 in
  passes s1 = [Fetching]
  ∧ passes s2 = [Fetching; Fetching]
  ∧ passes s2 ≠ passes s1
  ∧ length (applying s3) = 2%nat.
Proof. vm_compute. split_and!; [reflexivity | reflexivity | discriminate | reflexivity]. Qed.

(** Two overlapping passes that both planned to create x create it twice. *)
Example overlap_creates_twice :
  let s := run [Message true; Tick 1;
                FetchSettled 0 (Some remote_xy); FetchSettled 1 (Some remote_xy);
                Resume 0; Resume 1; Resume 0; Resume 1; Resume 0; Resume 0]
             scheduler_on in
  passes s = []
  ∧ node_url <$> traverseNodes (tree (sch_store s)) = ["http://y"; "http://x"; "http://x"].
Proof. vm_compute. split; reflexivity. Qed.

(** *** A pass on its own *)

Lemma run_app l1 l2 s : run (l1 ++ l2) s = run l2 (run l1 s).
Proof. apply foldl_app. Qed.

Lemma resume_creates cs : ∀ s ds,
  passes s = [Applying cs ds] →
  run (replicate (length cs) (Resume 0)) s
  = set_store (create_all cs (sch_store s)) (set_passes [Applying [] ds] s).
Proof.
  induction cs as [|bm cs IH]; intros s ds Hs.
  - destruct s; simpl in *. by subst.
  - simpl. rewrite Hs. simpl. rewrite (IH _ ds) by done. by destruct s.
Qed.

Lemma resume_deletes ds : ∀ s,
  passes s = [Applying [] ds] →
  run (replicate (length ds) (Resume 0)) s
  = set_store (remove_all ds (sch_store s)) (set_passes [Applying [] []] s).
Proof.
  induction ds as [|n ds IH]; intros s Hs.
  - destruct s; simpl in *. by subst.
  - simpl. rewrite Hs. simpl. rewrite IH by done. by destruct s.
Qed.

(** A pass that runs with no other pass in flight leaves the store that the
    plan gives, which is the store that [performAutoSync] leaves
    ([performAutoSync_changes]). *)
Lemma lone_pass s remote :
  passes s = [] →
  skip_sync (sch_settings s) (sch_has_bookmarks s) = false →
  let cs := toCreateLocally remote (tree (sch_store s)) in
  let ds := toDeleteLocally remote (tree (sch_store s)) in
  run (FetchSettled 0 (Some remote)
         :: replicate (length cs) (Resume 0)
         ++ replicate (length ds) (Resume 0)
         ++ [Resume 0])
      (call_performAutoSync s)
  = set_store (remove_all ds (create_all cs (sch_store s))) s.
Proof.
  intros Hs Hguard cs ds. unfold call_performAutoSync. rewrite Hguard, Hs.
  change (run (?i :: ?l) ?s0) with (run l (step i s0)).
  rewrite !run_app.
  change (step (FetchSettled 0 (Some remote)) (set_passes ([] ++ [Fetching]) s))
    with (set_passes [Applying cs ds] s).
  rewrite (resume_creates cs _ ds) by done.
  rewrite resume_deletes by done.
  destruct s; simpl in *. by subst.
Qed.

(** * Further properties *)

(** ** Pruning a well-formed forest *)

Lemma all_nodes_app t1 t2 : all_nodes (t1 ++ t2) = all_nodes t1 ++ all_nodes t2.
Proof. unfold all_nodes. apply flat_map_app. Qed.

Lemma flat_map_ext_Forall {A B} (f g : A → list B) l :
  Forall (λ x, f x = g x) l → flat_map f l = flat_map g l.
Proof. induction 1 as [|x l Hx _ IH]; simpl; [done|]. by rewrite Hx, IH. Qed.

Lemma filter_flat_map {A B} (P : B → Prop) `{∀ x, Decision (P x)} (f : A → list B) l :
  filter P (flat_map f l) = flat_map (λ x, filter P (f x)) l.
Proof. induction l as [|x l IH]; simpl; [done|]. by rewrite filter_app, IH. Qed.

(** The traversal pushes the nodes that have a url, in the order of the
    forest. *)
Lemma traverseNode_all_nodes n :
  traverseNode n = filter (λ n, truthy (node_url n) = true) (all_nodes_of n).
Proof.
  induction n as [id title url children IH] using NativeNode_forest_ind.
  simpl. rewrite filter_cons, filter_flat_map. simpl.
  rewrite (flat_map_ext_Forall _ _ _ IH).
  destruct (truthy url) eqn:E.
  - by rewrite decide_True.
  - by rewrite decide_False.
Qed.

Lemma traverseNodes_all_nodes t :
  traverseNodes t = filter (λ n, truthy (node_url n) = true) (all_nodes t).
Proof.
  unfold traverseNodes, all_nodes. rewrite filter_flat_map.
  apply flat_map_ext_Forall, Forall_forall. intros n _. apply traverseNode_all_nodes.
Qed.

Lemma leaf_or_folder_node id title url children :
  leaf_or_folder (mkNode id title url children) = true
  ↔ (truthy url = true → children = [])
    ∧ Forall (λ c, leaf_or_folder c = true) children.
Proof.
  simpl. rewrite andb_true_iff, forallb_forall, Forall_forall.
  setoid_rewrite <- list_elem_of_In.
  split; intros [Hleaf Hchildren]; (split; [|done]).
  - intros Hurl. destruct children; [done|]. by rewrite Hurl in Hleaf.
  - destruct children; [done|]. destruct (truthy url); [|done]. by specialize (Hleaf eq_refl).
Qed.

Lemma forest_shape_Forall t :
  forallb leaf_or_folder t = true ↔ Forall (λ c, leaf_or_folder c = true) t.
Proof.
  rewrite forallb_forall, Forall_forall. by setoid_rewrite <- list_elem_of_In.
Qed.

Lemma flat_map_flat_map {A B C} (f : B → list C) (g : A → list B) l :
  flat_map f (flat_map g l) = flat_map (λ x, flat_map f (g x)) l.
Proof. induction l as [|x l IH]; simpl; [done|]. by rewrite flat_map_app, IH. Qed.

(** Removing the id of a bookmark from a forest of bookmarks and folders
    takes the nodes with that id out of what the traversal pushes and leaves
    the other pushed nodes as they were. *)
Lemma prune_traverseNode i n :
  leaf_or_folder n = true →
  (∀ m, m ∈ all_nodes_of n → node_id m = i → truthy (node_url m) = true) →
  traverseNodes (prune i n) = filter (λ m, node_id m ≠ i) (traverseNode n)
  ∧ Forall (λ c, leaf_or_folder c = true) (prune i n).
Proof.
  induction n as [id title url children IH] using NativeNode_forest_ind.
  intros [Hleaf Hshape]%leaf_or_folder_node Howner.
  assert (traverseNodes (flat_map (prune i) children)
          = filter (λ m, node_id m ≠ i) (flat_map traverseNode children)
          ∧ Forall (λ c, leaf_or_folder c = true) (flat_map (prune i) children))
    as [Hpruned Hpruned_shape].
  { assert (∀ m, m ∈ all_nodes children → node_id m = i → truthy (node_url m) = true)
      as Hbelow by (intros m Hm; apply Howner; simpl; by right).
    clear Howner Hleaf. unfold traverseNodes.
    induction IH as [|c children Hc _ IHcs]; [done|].
    apply Forall_cons in Hshape as [Hc_shape Hshape]. simpl.
    destruct (Hc Hc_shape) as [Hc_traverse Hc_pruned].
    { intros m Hm. apply Hbelow. unfold all_nodes. simpl. apply elem_of_app. by left. }
    destruct (IHcs Hshape) as [Hcs_traverse Hcs_pruned].
    { intros m Hm. apply Hbelow. unfold all_nodes. simpl. apply elem_of_app. by right. }
    rewrite flat_map_app, filter_app. unfold traverseNodes in Hc_traverse.
    rewrite Hc_traverse, Hcs_traverse. split; [done|]. by apply Forall_app. }
  simpl. destruct (Nat.eqb_spec id i) as [->|Hne].
  - assert (truthy url = true) as Hurl
      by (apply (Howner (mkNode i title url children)); [by left|done]).
    rewrite (Hleaf Hurl), Hurl. simpl. rewrite filter_cons, decide_False by (by intros ?).
    done.
  - unfold traverseNodes in *. simpl. rewrite app_nil_r, filter_app, <- Hpruned.
    split.
    + f_equal. destruct (truthy url) eqn:Hurl; [|done].
      rewrite (Hleaf eq_refl). simpl. by rewrite filter_cons, decide_True.
    + constructor; [|done]. apply leaf_or_folder_node. split; [|done].
      intros Hurl. by rewrite (Hleaf Hurl).
Qed.

Lemma prune_traverseNodes i t :
  forallb leaf_or_folder t = true →
  (∀ m, m ∈ all_nodes t → node_id m = i → truthy (node_url m) = true) →
  traverseNodes (flat_map (prune i) t) = filter (λ m, node_id m ≠ i) (traverseNodes t)
  ∧ forallb leaf_or_folder (flat_map (prune i) t) = true.
Proof.
  rewrite !forest_shape_Forall. intros Hshape Howner.
  induction t as [|n t IH]; [done|].
  apply Forall_cons in Hshape as [Hn Hshape]. simpl.
  destruct (prune_traverseNode i n Hn) as [Hn_traverse Hn_shape].
  { intros m Hm. apply Howner. unfold all_nodes. simpl. apply elem_of_app. by left. }
  destruct (IH Hshape) as [Ht_traverse Ht_shape].
  { intros m Hm. apply Howner. unfold all_nodes. simpl. apply elem_of_app. by right. }
  rewrite traverseNodes_app, Hn_traverse, Ht_traverse.
  change (traverseNodes (n :: t)) with (traverseNode n ++ traverseNodes t).
  rewrite filter_app. split; [done|]. by apply Forall_app.
Qed.

(** Every node of a pruned forest has the id and the url of a node that was
    there before. *)
Lemma prune_all_nodes i t m' :
  m' ∈ all_nodes (flat_map (prune i) t) →
  ∃ m, m ∈ all_nodes t ∧ node_id m = node_id m' ∧ node_url m = node_url m'.
Proof.
  revert m'.
  assert (∀ n m', m' ∈ all_nodes (prune i n) →
            ∃ m, m ∈ all_nodes_of n ∧ node_id m = node_id m' ∧ node_url m = node_url m')
    as Hnode.
  { induction n as [id title url children IH] using NativeNode_forest_ind.
    intros m'. simpl. destruct (Nat.eqb id i).
    - intros Hm'. by apply elem_of_nil in Hm'.
    - unfold all_nodes. simpl. rewrite app_nil_r. intros [->|Hm']%elem_of_cons.
      + eexists. split; [by left|done].
      + assert (∃ m, m ∈ all_nodes children
                     ∧ node_id m = node_id m' ∧ node_url m = node_url m')
          as (m & Hm & Hid & Hurl); [|exists m; split; [by right|done]].
        induction IH as [|c children Hc _ IHcs]; simpl in Hm';
          [by apply elem_of_nil in Hm'|].
        rewrite flat_map_app in Hm'. apply elem_of_app in Hm' as [Hm'|Hm'].
        * destruct (Hc m' Hm') as (m & Hm & Hids).
          exists m. split; [|done]. unfold all_nodes. simpl. apply elem_of_app. by left.
        * destruct (IHcs Hm') as (m & Hm & Hids).
          exists m. split; [|done]. unfold all_nodes. simpl. apply elem_of_app. by right. }
  induction t as [|n t IH]; intros m'; simpl.
  - intros Hm'. by apply elem_of_nil in Hm'.
  - rewrite all_nodes_app. intros [Hm'|Hm']%elem_of_app.
    + destruct (Hnode n m' Hm') as (m & Hm & Hids).
      exists m. split; [|done]. unfold all_nodes. simpl. apply elem_of_app. by left.
    + destruct (IH m' Hm') as (m & Hm & Hids).
      exists m. split; [|done]. unfold all_nodes. simpl. apply elem_of_app. by right.
Qed.

Lemma filter_all {A} (P : A → Prop) `{∀ x, Decision (P x)} (l : list A) :
  Forall P l → filter P l = l.
Proof.
  induction 1 as [|x l Hx _ IH]; [done|]. by rewrite filter_cons, decide_True, IH.
Qed.

Lemma filter_none {A} (P : A → Prop) `{∀ x, Decision (P x)} (l : list A) :
  Forall (λ x, ¬ P x) l → filter P l = [].
Proof.
  induction 1 as [|x l Hx _ IH]; [done|]. by rewrite filter_cons, decide_False, IH.
Qed.

Lemma filter_ext_elem_of {A} (P Q : A → Prop)
    `{∀ x, Decision (P x)} `{∀ x, Decision (Q x)} (l : list A) :
  (∀ x, x ∈ l → P x ↔ Q x) → filter P l = filter Q l.
Proof.
  induction l as [|x l IH]; intros Hiff; [done|].
  rewrite !filter_cons, IH by (intros y Hy; apply Hiff; by right).
  destruct (decide (P x)) as [HP|HP].
  - rewrite decide_True; [done|]. apply Hiff; [by left|done].
  - rewrite decide_False; [done|]. intros HQ. apply HP, Hiff; [by left|done].
Qed.

Lemma NoDup_fmap_eq {A B} (f : A → B) (l : list A) x y :
  NoDup (f <$> l) → x ∈ l → y ∈ l → f x = f y → x = y.
Proof.
  induction l as [|z l IH]; intros Hnodup Hx Hy Hf; [by apply elem_of_nil in Hx|].
  simpl in Hnodup. apply NoDup_cons in Hnodup as [Hz Hnodup].
  apply elem_of_cons in Hx as [->|Hx]; apply elem_of_cons in Hy as [->|Hy]; try done.
  - exfalso. apply Hz. rewrite Hf. by apply list_elem_of_fmap_2.
  - exfalso. apply Hz. rewrite <- Hf. by apply list_elem_of_fmap_2.
  - by apply IH.
Qed.

(** Where ids tell the elements apart, dropping the ids of the elements
    that satisfy a test drops those elements and no other. *)
Lemma filter_by_ids {A} (f : A → nat) (Q : A → Prop) `{∀ x, Decision (Q x)}
    (l : list A) :
  NoDup (f <$> l) →
  filter (λ x, f x ∉ (f <$> filter Q l)) l = filter (λ x, ¬ Q x) l.
Proof.
  intros Hnodup. apply filter_ext_elem_of. intros x Hx. split.
  - intros Hnot HQ. apply Hnot, list_elem_of_fmap_2. by apply list_elem_of_filter.
  - intros HnQ (y & Hf & Hy)%list_elem_of_fmap.
    apply list_elem_of_filter in Hy as [HQ Hy].
    by rewrite (NoDup_fmap_eq f l x y Hnodup Hx Hy Hf) in HnQ.
Qed.

(** The removals of a pass, one after the other: what the traversal pushes
    afterwards is what it pushed before, less the nodes with a removed id. *)
Lemma remove_all_traverse ds : ∀ s,
  forallb leaf_or_folder (tree s) = true →
  (∀ d m, d ∈ ds → m ∈ all_nodes (tree s) → node_id m = node_id d →
          truthy (node_url m) = true) →
  traverseNodes (tree (remove_all ds s))
  = filter (λ m, node_id m ∉ (node_id <$> ds)) (traverseNodes (tree s)).
Proof.
  induction ds as [|d ds IH]; intros s Hshape Howner.
  - simpl. symmetry. apply filter_all, Forall_forall. intros m _. apply not_elem_of_nil.
  - change (remove_all (d :: ds) s) with (remove_all ds (bookmarks_remove (node_id d) s)).
    destruct (prune_traverseNodes (node_id d) (tree s) Hshape) as [Htraverse Hshape'].
    { intros m Hm. apply (Howner d m); [by left|done]. }
    rewrite IH; simpl; [|done|].
    + rewrite Htraverse, list_filter_filter. apply filter_ext_elem_of.
      intros m _. rewrite not_elem_of_cons. tauto.
    + intros d' m' Hd' Hm' Hid.
      apply prune_all_nodes in Hm' as (m & Hm & Hid' & Hurl).
      rewrite <- Hurl. apply (Howner d' m); [by right|done|congruence].
Qed.

(** *** The nodes that a pass creates *)

Lemma new_leaves_all_nodes bms : ∀ k, all_nodes (new_leaves k bms) = new_leaves k bms.
Proof.
  induction bms as [|bm bms IH]; intros k; [done|].
  unfold all_nodes in *. simpl. by rewrite IH.
Qed.

Lemma new_leaves_ids bms : ∀ k, Forall (λ n, k ≤ node_id n)%nat (new_leaves k bms).
Proof.
  induction bms as [|bm bms IH]; intros k; simpl; constructor; [simpl; lia|].
  eapply Forall_impl; [apply IH|]. simpl. intros n Hn. lia.
Qed.

Lemma new_leaves_shape bms : ∀ k, forallb leaf_or_folder (new_leaves k bms) = true.
Proof. induction bms as [|bm bms IH]; intros k; simpl; [done|]. apply IH. Qed.

Lemma new_leaves_NoDup bms : ∀ k, NoDup (node_id <$> new_leaves k bms).
Proof.
  induction bms as [|bm bms IH]; intros k; simpl; [constructor|].
  apply NoDup_cons. split; [|apply IH].
  intros (n & Hid & Hn)%list_elem_of_fmap.
  pose proof (new_leaves_ids bms (S k)) as Hids. rewrite Forall_forall in Hids.
  specialize (Hids n Hn). simpl in Hid. lia.
Qed.

Lemma forallb_app_true {A} (f : A → bool) l1 l2 :
  forallb f l1 = true → forallb f l2 = true → forallb f (l1 ++ l2) = true.
Proof. intros H1 H2. by rewrite forallb_app, H1, H2. Qed.

(** *** The leaves after a pass *)

Lemma traverseNodes_elem_of n t :
  n ∈ traverseNodes t ↔ n ∈ all_nodes t ∧ truthy (node_url n) = true.
Proof. rewrite traverseNodes_all_nodes, list_elem_of_filter. tauto. Qed.

Lemma leaf_ids_NoDup t : NoDup (node_id <$> all_nodes t) → NoDup (node_id <$> traverseNodes t).
Proof.
  intros Hnodup. apply (sublist_NoDup _ (node_id <$> all_nodes t)); [exact Hnodup|].
  rewrite traverseNodes_all_nodes. apply fmap_sublist, sublist_filter.
Qed.

Lemma new_leaves_elem_of bms : ∀ k n,
  n ∈ new_leaves k bms → ∃ bm, bm ∈ bms ∧ node_url n = bm_url bm.
Proof.
  induction bms as [|bm bms IH]; intros k n Hn; [by apply elem_of_nil in Hn|].
  simpl in Hn. apply elem_of_cons in Hn as [->|Hn].
  - exists bm. split; [by left|done].
  - destruct (IH _ _ Hn) as (bm' & Hbm' & Hurl). exists bm'. split; [by right|done].
Qed.

(** On a well-formed store the plan of a pass leaves the old leaves whose
    url is remote, in their order, followed by the leaves it created. *)
Lemma mirror_store_leaves s remote :
  wf_store s →
  traverseNodes (tree (remove_all (toDeleteLocally remote (tree s))
                         (create_all (toCreateLocally remote (tree s)) s)))
  = filter (λ n, node_url n ∈ (list_to_set (bm_url <$> remote) : gset string))
      (traverseNodes (tree s))
    ++ traverseNodes (new_leaves (next_id s) (toCreateLocally remote (tree s))).
Proof.
  intros [Hshape Hnodup Hfresh].
  set (cs := toCreateLocally remote (tree s)).
  set (ds := toDeleteLocally remote (tree s)).
  assert (∀ d, d ∈ ds → d ∈ all_nodes (tree s) ∧ truthy (node_url d) = true) as Hds.
  { intros d [_ Hd]%list_elem_of_filter. by apply traverseNodes_elem_of. }
  assert (∀ d, d ∈ ds → (node_id d < next_id s)%nat) as Hds_old.
  { intros d [Hd _]%Hds. rewrite Forall_forall in Hfresh. by apply Hfresh. }
  pose proof (new_leaves_ids cs (next_id s)) as Hnew. rewrite Forall_forall in Hnew.
  rewrite create_all_spec, remove_all_traverse; simpl.
  - rewrite traverseNodes_app, filter_app. f_equal.
    + unfold ds, toDeleteLocally. rewrite filter_by_ids by by apply leaf_ids_NoDup.
      apply filter_ext_elem_of. intros n _. split; [apply dec_stable|by intros ? ?].
    + apply filter_all, Forall_forall. intros n [Hn _]%traverseNodes_elem_of.
      rewrite new_leaves_all_nodes in Hn. intros (d & Hid & Hd)%list_elem_of_fmap.
      specialize (Hnew n Hn). specialize (Hds_old d Hd). lia.
  - apply forallb_app_true; [done|apply new_leaves_shape].
  - intros d m Hd Hm Hid. rewrite all_nodes_app, new_leaves_all_nodes in Hm.
    apply elem_of_app in Hm as [Hm|Hm].
    + destruct (Hds d Hd) as [Hd_node Hd_url].
      by rewrite (NoDup_fmap_eq node_id _ m d Hnodup Hm Hd_node Hid).
    + specialize (Hnew m Hm). specialize (Hds_old d Hd). lia.
Qed.

(** The urls that the traversal finds after the plan of a pass are the urls
    of the remote records, the empty one apart. *)
Lemma mirror_store_urls s remote u :
  wf_store s →
  u ∈ nativeUrls (tree (remove_all (toDeleteLocally remote (tree s))
                          (create_all (toCreateLocally remote (tree s)) s)))
  ↔ u ∈ bm_url <$> remote ∧ truthy u = true.
Proof.
  intros Hwf. unfold nativeUrls at 1. rewrite (mirror_store_leaves s remote Hwf).
  rewrite elem_of_list_to_set, fmap_app, elem_of_app. split.
  - intros [(n & -> & Hn)%list_elem_of_fmap|(n & -> & Hn)%list_elem_of_fmap].
    + apply list_elem_of_filter in Hn as [Hremote [_ Hurl]%traverseNodes_elem_of].
      by apply elem_of_list_to_set in Hremote.
    + apply traverseNodes_elem_of in Hn as [Hn Hurl].
      rewrite new_leaves_all_nodes in Hn.
      apply new_leaves_elem_of in Hn as (bm & [_ Hbm]%list_elem_of_filter & Heq).
      rewrite Heq in *. split; [by apply list_elem_of_fmap_2|done].
  - intros [Hremote Hurl].
    destruct (decide (u ∈ nativeUrls (tree s))) as [Hold|Hnew].
    + left. apply elem_of_list_to_set, list_elem_of_fmap in Hold as (n & -> & Hn).
      apply list_elem_of_fmap_2, list_elem_of_filter. split; [|done].
      by apply elem_of_list_to_set.
    + right. apply list_elem_of_fmap in Hremote as (bm & -> & Hbm).
      apply (elem_of_list_to_set (C:=gset string)).
      apply (new_leaves_urls _ (next_id s) bm); [|done].
      by apply list_elem_of_filter.
Qed.

(** After the plan of a pass over the same remote collection, a further
    plan has nothing to create (the remote urls being non-empty) and nothing
    to delete. *)
Lemma mirror_store_settled s remote :
  wf_store s →
  Forall (λ bm, truthy (bm_url bm) = true) remote →
  let s' := remove_all (toDeleteLocally remote (tree s))
              (create_all (toCreateLocally remote (tree s)) s) in
  toCreateLocally remote (tree s') = [] ∧ toDeleteLocally remote (tree s') = [].
Proof.
  intros Hwf Htruthy s'. rewrite Forall_forall in Htruthy. split.
  - apply filter_none, Forall_forall. intros bm Hbm Hmissing. apply Hmissing.
    apply (mirror_store_urls s remote (bm_url bm) Hwf).
    split; [by apply list_elem_of_fmap_2|by apply Htruthy].
  - apply filter_none, Forall_forall. intros n Hn Hgone. apply Hgone.
    apply elem_of_list_to_set.
    apply (mirror_store_urls s remote (node_url n) Hwf).
    apply elem_of_list_to_set. by apply list_elem_of_fmap_2.
Qed.

Lemma store_yz_wf : wf_store store_yz.
Proof.
  split.
  - reflexivity.
  - apply (bool_decide_unpack _). by vm_compute.
  - repeat constructor; simpl; lia.
Qed.

(** X1. After a Mirror pass that fetched the remote collection, on a
    well-formed store, the leaves are the old leaves whose url is remote, as
    they were and in their order, followed by the leaves created for the
    remote records that were missing. *)
Theorem mirror_keeps_remote_leaves (w : World) (res : Response)
    (remote : list BookmarkRecord) :
  wf_store (bookmarks w) →
  skip_sync (storage w) (has_bookmarks w) = false →
  (mirror_fetch w).1 = Ok res →
  body res = JArray remote →
  traverseNodes (tree (bookmarks (performAutoSync w).2))
  = filter (λ n, node_url n ∈ (list_to_set (bm_url <$> remote) : gset string))
      (traverseNodes (tree (bookmarks w)))
    ++ traverseNodes (new_leaves (next_id (bookmarks w))
                        (toCreateLocally remote (tree (bookmarks w)))).
Proof.
  intros Hwf Hguard Hres Hbody.
  destruct (performAutoSync_changes w res remote Hguard Hres Hbody) as [_ ->].
  by apply mirror_store_leaves.
Qed.

Lemma mirror_keeps_remote_leaves_witness :
  let w := world_of settings_on store_yz [Resolves (respond_with remote_xy)] in
  traverseNodes (tree (bookmarks (performAutoSync w).2))
  = [leaf 3 "Y" "http://y"] ++ [leaf 5 "http://x" "http://x"].
Proof.
  intros w.
  apply (mirror_keeps_remote_leaves w (respond_with remote_xy) remote_xy);
    [apply store_yz_wf | reflexivity | reflexivity | reflexivity].
Defined.

(** X2. After such a pass the set of local urls is the set of remote urls
    (the empty string, which no leaf can carry, apart). *)
Theorem mirror_urls_match_remote (w : World) (res : Response)
    (remote : list BookmarkRecord) (u : string) :
  wf_store (bookmarks w) →
  skip_sync (storage w) (has_bookmarks w) = false →
  (mirror_fetch w).1 = Ok res →
  body res = JArray remote →
  u ∈ nativeUrls (tree (bookmarks (performAutoSync w).2))
  ↔ u ∈ bm_url <$> remote ∧ truthy u = true.
Proof.
  intros Hwf Hguard Hres Hbody.
  destruct (performAutoSync_changes w res remote Hguard Hres Hbody) as [_ ->].
  by apply mirror_store_urls.
Qed.

Lemma mirror_urls_match_remote_witness :
  let w := world_of settings_on store_yz [Resolves (respond_with remote_xy)] in
  "http://x" ∈ nativeUrls (tree (bookmarks (performAutoSync w).2))
  ∧ "http://z" ∉ nativeUrls (tree (bookmarks (performAutoSync w).2)).
Proof.
  intros w.
  pose proof (λ u, mirror_urls_match_remote w (respond_with remote_xy) remote_xy u
                     store_yz_wf eq_refl eq_refl eq_refl) as Hurls.
  split.
  - apply Hurls. split; [|reflexivity]. apply list_elem_of_fmap.
    exists (mkBookmark "http://x" ""). split; [reflexivity|]. left.
  - intros [Hremote _]%Hurls. apply list_elem_of_fmap in Hremote as (bm & Hurl & Hbm).
    repeat (apply elem_of_cons in Hbm as [->|Hbm]; [discriminate|]).
    by apply elem_of_nil in Hbm.
Defined.

(** X3. A second Mirror pass over the store that the first one left, with
    the same remote collection of records with non-empty urls, creates
    nothing and removes nothing. *)
Theorem mirror_second_pass_idle (w w2 : World) (res res2 : Response)
    (remote : list BookmarkRecord) :
  wf_store (bookmarks w) →
  Forall (λ bm, truthy (bm_url bm) = true) remote →
  skip_sync (storage w) (has_bookmarks w) = false →
  (mirror_fetch w).1 = Ok res →
  body res = JArray remote →
  bookmarks w2 = bookmarks (performAutoSync w).2 →
  skip_sync (storage w2) (has_bookmarks w2) = false →
  (mirror_fetch w2).1 = Ok res2 →
  body res2 = JArray remote →
  bookmarks (performAutoSync w2).2 = bookmarks w2
  ∧ changes (trace (performAutoSync w2).2) = changes (trace w2).
Proof.
  intros Hwf Htruthy Hguard Hres Hbody Hsame Hguard2 Hres2 Hbody2.
  destruct (performAutoSync_changes w res remote Hguard Hres Hbody) as [_ Hstore].
  destruct (performAutoSync_changes w2 res2 remote Hguard2 Hres2 Hbody2) as [-> ->].
  destruct (mirror_store_settled (bookmarks w) remote Hwf Htruthy) as [Hcreate Hdelete].
  rewrite Hsame, Hstore, Hcreate, Hdelete. simpl. by rewrite app_nil_r.
Qed.

Lemma mirror_second_pass_idle_witness :
  let w := world_of settings_on store_yz
             [Resolves (respond_with remote_xy); Resolves (respond_with remote_xy)] in
  let w2 := (performAutoSync w).2 in
  bookmarks (performAutoSync w2).2 = bookmarks w2
  ∧ changes (trace (performAutoSync w2).2) = changes (trace w2).
Proof.
  intros w w2.
  apply (mirror_second_pass_idle w w2 (respond_with remote_xy) (respond_with remote_xy)
           remote_xy);
    [apply store_yz_wf | repeat constructor | reflexivity..].
Defined.

(** X4. When every local url is also remote, a Mirror pass removes nothing:
    the forest is the one it found, followed by the created leaves. *)
Theorem mirror_superset_removes_nothing (w : World) (res : Response)
    (remote : list BookmarkRecord) :
  nativeUrls (tree (bookmarks w)) ⊆ list_to_set (bm_url <$> remote) →
  skip_sync (storage w) (has_bookmarks w) = false →
  (mirror_fetch w).1 = Ok res →
  body res = JArray remote →
  tree (bookmarks (performAutoSync w).2)
  = tree (bookmarks w)
    ++ new_leaves (next_id (bookmarks w)) (toCreateLocally remote (tree (bookmarks w)))
  ∧ changes (trace (performAutoSync w).2)
    = changes (trace w) ++ create_events (toCreateLocally remote (tree (bookmarks w))).
Proof.
  intros Hsub Hguard Hres Hbody.
  destruct (performAutoSync_changes w res remote Hguard Hres Hbody) as [-> ->].
  assert (toDeleteLocally remote (tree (bookmarks w)) = []) as ->.
  { apply filter_none, Forall_forall. intros n Hn Hgone. apply Hgone, Hsub.
    apply elem_of_list_to_set. by apply list_elem_of_fmap_2. }
  simpl. by rewrite create_all_spec, app_nil_r.
Qed.

Lemma mirror_superset_removes_nothing_witness :
  let remote := remote_xy ++ [mkBookmark "http://z" "Zed"] in
  let w := world_of settings_on store_yz [Resolves (respond_with remote)] in
  tree (bookmarks (performAutoSync w).2) = tree store_yz ++ [leaf 5 "http://x" "http://x"]
  ∧ changes (trace (performAutoSync w).2) = [EvCreate "http://x" "http://x"].
Proof.
  intros remote w.
  apply (mirror_superset_removes_nothing w (respond_with remote) remote);
    [|reflexivity..].
  apply (bool_decide_unpack _). by vm_compute.
Defined.

(** ** More on the transport *)

Lemma backoffs_sum k : ∀ backoff,
  foldr Z.add 0 (backoffs k backoff) = backoff * (2 ^ Z.of_nat k - 1).
Proof.
  induction k as [|k IH]; intros backoff; simpl backoffs; simpl foldr; [lia|].
  rewrite IH, Nat2Z.inj_succ, Z.pow_succ_r by lia. lia.
Qed.

(** The fetches and the waits of a call: [k + 1] fetches of the same request
    and the first [k] waits of the doubling sequence, for some [k] up to
    [retries]. *)
Lemma fetchWithRetry_waits req retries : ∀ backoff w,
  ∃ k, (k ≤ retries)%nat
  ∧ fetches (fetchWithRetry req retries backoff w).2 = (fetches w + k + 1)%nat
  ∧ requests (trace (fetchWithRetry req retries backoff w).2)
    = requests (trace w) ++ replicate (S k) req
  ∧ timeouts (trace (fetchWithRetry req retries backoff w).2)
    = timeouts (trace w) ++ backoffs k backoff.
Proof.
  induction retries as [|retries IH]; intros backoff w;
    destruct (failed_or_ok (network w (fetches w) req)) as [Hf|(res & Hnet & Hok)];
    try (rewrite (attempt_ok _ _ _ _ _ Hnet Hok); exists 0%nat; simpl;
         rewrite requests_app, timeouts_app; simpl;
         rewrite !app_nil_r; split_and!; [lia|lia|done..]).
  - rewrite attempt_last by done. exists 0%nat. simpl.
    rewrite requests_app, timeouts_app. simpl. rewrite !app_nil_r.
    split_and!; [lia|lia|done..].
  - rewrite attempt_retry by done.
    destruct (IH (backoff * 2) (backed_off req (S retries) backoff w))
      as (k & Hk & Hfetches & Hreq & Htimeouts).
    exists (S k). rewrite Hfetches, Hreq, Htimeouts. simpl.
    rewrite !requests_app, !timeouts_app. simpl.
    rewrite !app_nil_r, <- !app_assoc. split_and!; [lia|lia|done..].
Qed.

(** X5. A call whose [retries + 1] attempts all fail throws the error of
    the last attempt, after [retries + 1] fetches and all the waits
    [backoff], [2 * backoff], ... *)
Theorem retries_exhausted_throws_last (req : Request) (retries : nat) (backoff : Z)
    (w : World) :
  (∀ i, (i ≤ retries)%nat → failed (network w (fetches w + i) req) = true) →
  (fetchWithRetry req retries backoff w).1
  = Throw (error_of (network w (fetches w + retries) req))
  ∧ fetches (fetchWithRetry req retries backoff w).2 = (fetches w + retries + 1)%nat
  ∧ timeouts (trace (fetchWithRetry req retries backoff w).2)
    = timeouts (trace w) ++ backoffs retries backoff.
Proof. apply fetchWithRetry_exhausted. Qed.

Lemma retries_exhausted_throws_last_witness :
  let w := world_of settings_on store_yz
             [Resolves (respond 503); Rejects; Resolves (respond 429); Resolves (respond 500)] in
  (fetchWithRetry some_request default_retries default_backoff w).1
  = Throw (ServerReturned 500)
  ∧ fetches (fetchWithRetry some_request default_retries default_backoff w).2 = 4%nat
  ∧ timeouts (trace (fetchWithRetry some_request default_retries default_backoff w).2)
    = [1000; 2000; 4000].
Proof.
  intros w.
  apply (retries_exhausted_throws_last some_request default_retries default_backoff w).
  intros [|[|[|[|i]]]] Hi; [reflexivity..|unfold default_retries in Hi; lia].
Defined.

(** X6. A response that [fetchWithRetry] returns has an ok status: the
    tests [!res.ok] that follow its calls never fire. *)
Theorem returned_response_is_ok (req : Request) (retries : nat) (backoff : Z)
    (w : World) (res : Response) :
  (fetchWithRetry req retries backoff w).1 = Ok res →
  ok res = true ∧ 200 ≤ status res ≤ 299.
Proof.
  intros Hres. pose proof (fetchWithRetry_returns_ok _ _ _ _ _ Hres) as Hok.
  split; [done|]. unfold ok in Hok. apply andb_prop in Hok as [?%Z.leb_le ?%Z.leb_le].
  lia.
Qed.

Lemma returned_response_is_ok_witness :
  let w := world_of settings_on store_yz [Resolves (respond 503); Resolves (respond 204)] in
  (fetchWithRetry some_request default_retries default_backoff w).1 = Ok (respond 204)
  ∧ ok (respond 204) = true ∧ 200 ≤ status (respond 204) ≤ 299.
Proof.
  intros w. split; [reflexivity|].
  apply (returned_response_is_ok some_request default_retries default_backoff w).
  reflexivity.
Defined.

(** X7. Whatever the network does, a call makes between one and
    [retries + 1] fetches, all of the same request, and waits in total
    [backoff * (2 ^ k - 1)] milliseconds for the [k] retries it made: never
    more than [backoff * (2 ^ retries - 1)]. It does not touch the store. *)
Theorem fetchWithRetry_bounded (req : Request) (retries : nat) (backoff : Z)
    (w : World) :
  0 ≤ backoff →
  ∃ k, (k ≤ retries)%nat
  ∧ fetches (fetchWithRetry req retries backoff w).2 = (fetches w + k + 1)%nat
  ∧ requests (trace (fetchWithRetry req retries backoff w).2)
    = requests (trace w) ++ replicate (S k) req
  ∧ waited (trace (fetchWithRetry req retries backoff w).2)
    = waited (trace w) + backoff * (2 ^ Z.of_nat k - 1)
  ∧ waited (trace (fetchWithRetry req retries backoff w).2) - waited (trace w)
    ≤ backoff * (2 ^ Z.of_nat retries - 1)
  ∧ bookmarks (fetchWithRetry req retries backoff w).2 = bookmarks w.
Proof.
  intros Hbackoff.
  destruct (fetchWithRetry_waits req retries backoff w)
    as (k & Hk & Hfetches & Hreq & Htimeouts).
  destruct (fetchWithRetry_frame req retries backoff w) as (_ & _ & Hstore & _).
  exists k. apply waited_timeouts in Htimeouts. rewrite backoffs_sum in Htimeouts.
  split_and!; try done. rewrite Htimeouts.
  assert (2 ^ Z.of_nat k ≤ 2 ^ Z.of_nat retries) by (apply Z.pow_le_mono_r; lia).
  nia.
Qed.

Lemma fetchWithRetry_bounded_witness :
  let w := world_always settings_on store_yz Rejects in
  ∃ k, (k ≤ default_retries)%nat
  ∧ fetches (fetchWithRetry some_request default_retries default_backoff w).2
    = (fetches w + k + 1)%nat
  ∧ requests (trace (fetchWithRetry some_request default_retries default_backoff w).2)
    = requests (trace w) ++ replicate (S k) some_request
  ∧ waited (trace (fetchWithRetry some_request default_retries default_backoff w).2)
    = waited (trace w) + default_backoff * (2 ^ Z.of_nat k - 1)
  ∧ waited (trace (fetchWithRetry some_request default_retries default_backoff w).2)
    - waited (trace w)
    ≤ default_backoff * (2 ^ Z.of_nat default_retries - 1)
  ∧ bookmarks (fetchWithRetry some_request default_retries default_backoff w).2
    = bookmarks w.
Proof.
  intros w.
  apply (fetchWithRetry_bounded some_request default_retries default_backoff w).
  unfold default_backoff. lia.
Defined.

(** The worst case of the default call: 7000 ms of waiting. *)
Example default_worst_wait :
  let w := world_always settings_on store_yz Rejects in
  waited (trace (fetchWithRetry some_request default_retries default_backoff w).2) = 7000
  ∧ default_backoff * (2 ^ Z.of_nat default_retries - 1) = 7000.
Proof. vm_compute. done. Qed.

(** ** Runs that find nothing to apply *)

(** X8. A Pull-Merge run whose fetch throws logs the error, shows the
    failure message and leaves the local store as it was. *)
Theorem pull_merge_fails_closed (w : World) (e : Error) :
  handler_ready w = true →
  (pull_fetch w).1 = Throw e →
  syncToNative w
  = (Ok tt, log (EvStatus FailedToSync true) (log (EvError e) (pull_fetch w).2))
  ∧ bookmarks (syncToNative w).2 = bookmarks w
  ∧ changes (trace (syncToNative w).2) = changes (trace w).
Proof.
  intros [Hurl Hhas]%andb_prop Hres.
  destruct (pull_fetch_frame w) as (_ & _ & Hb & Hc).
  assert (syncToNative w
          = (Ok tt, log (EvStatus FailedToSync true) (log (EvError e) (pull_fetch w).2)))
    as Hrun.
  { unfold syncToNative, pull_fetch in *. unfold_js.
    rewrite Hurl. cbn [negb]. cbv beta. rewrite Hhas. cbn [negb]. cbv beta.
    destruct (fetchWithRetry _ _ _ w) as [r w1]. simpl in *. by subst r. }
  rewrite Hrun. simpl. rewrite !changes_app, Hc. simpl. by rewrite !app_nil_r.
Qed.

Lemma pull_merge_fails_closed_witness :
  let w := world_always settings_on store_yz Rejects in
  syncToNative w
  = (Ok tt, log (EvStatus FailedToSync true) (log (EvError TypeError) (pull_fetch w).2))
  ∧ bookmarks (syncToNative w).2 = store_yz
  ∧ changes (trace (syncToNative w).2) = [].
Proof.
  intros w. apply (pull_merge_fails_closed w TypeError); reflexivity.
Defined.





(** ** Push against a network that always answers the same way *)







(** ** More on the scheduler *)

(** X13. However often sync is started, restarted and stopped, at most one
    interval timer is registered afterwards, and it is the one that
    [syncIntervalId] names. *)
Theorem at_most_one_timer (inputs : list Input) (s : Scheduler) :
  one_timer s →
  one_timer (run inputs s) ∧ (size (intervals (run inputs s)) ≤ 1)%nat.
Proof.
  intros Hs. pose proof (run_one_timer inputs s Hs) as Hrun. split; [done|].
  rewrite Hrun. destruct (syncIntervalId (run inputs s)).
  - rewrite size_singleton. lia.
  - rewrite size_empty. lia.
Qed.

Lemma at_most_one_timer_witness :
  let s := run [Startup; Message true; Tick 1; Message true; Message true] scheduler_on in
  one_timer s ∧ (size (intervals s) ≤ 1)%nat.
Proof.
  intros s.
  apply (at_most_one_timer [Startup; Message true; Tick 1; Message true; Message true]
           scheduler_on).
  reflexivity.
Defined.

Example restart_keeps_one_timer :
  let s := run [Startup; Message true; Tick 1; Message true; Message true] scheduler_on in
  syncIntervalId s = Some 4%nat ∧ intervals s = {[4%nat]} ∧ length (passes s) = 4%nat.
Proof. vm_compute. done. Qed.

(** X14. Once sync is stopped no timer is left: the ticks that still
    arrive start no pass and change nothing. *)
Theorem stop_silences_ticks (s : Scheduler) (ids : list nat) :
  one_timer s →
  intervals (step (Message false) s) = ∅
  ∧ run (Tick <$> ids) (step (Message false) s) = step (Message false) s.
Proof.
  intros Hs.
  assert (intervals (step (Message false) s) = ∅) as Hnone.
  { simpl. unfold clear_current. rewrite Hs. destruct (syncIntervalId s); set_solver. }
  split; [done|].
  induction ids as [|id ids IH]; [done|].
  change (run (Tick <$> id :: ids) (step (Message false) s))
    with (run (Tick <$> ids) (step (Tick id) (step (Message false) s))).
  replace (step (Tick id) (step (Message false) s)) with (step (Message false) s); [done|].
  change (step (Tick id) (step (Message false) s))
    with (if bool_decide (id ∈ intervals (step (Message false) s))
          then call_performAutoSync (step (Message false) s)
          else step (Message false) s).
  rewrite Hnone. by rewrite bool_decide_eq_false_2 by set_solver.
Qed.

Lemma stop_silences_ticks_witness :
  let s := step (Message true) scheduler_on in
  intervals (step (Message false) s) = ∅
  ∧ run (Tick <$> [1; 1; 2]%nat) (step (Message false) s) = step (Message false) s.
Proof.
  intros s. apply (stop_silences_ticks s [1; 1; 2]%nat). reflexivity.
Defined.

(** X15. Stopping sync does not reach the passes in flight: a pass fetches,
    fixes its plan and applies it after the stop exactly as before it. *)
Theorem stop_does_not_cancel (s : Scheduler) (k : nat)
    (r : option (list BookmarkRecord)) :
  step (FetchSettled k r) (stopSync s) = stopSync (step (FetchSettled k r) s)
  ∧ step (Resume k) (stopSync s) = stopSync (step (Resume k) s)
  ∧ passes (stopSync s) = passes s
  ∧ sch_store (stopSync s) = sch_store s.
Proof.
  split_and!; [| |done|done].
  - simpl. destruct (passes s !! k) as [[|cs ds]|]; [|done..]. by destruct r.
  - simpl. destruct (passes s !! k) as [[|[|bm cs] [|n ds]]|]; done.
Qed.

(** A pass that was fetching when sync was stopped still removes the local
    leaf that is not remote. *)
Example stopped_pass_still_applies :
  let s := run [Message true; Message false; FetchSettled 0 (Some remote_xy);
                Resume 0; Resume 0; Resume 0] scheduler_on in
  passes s = [] ∧ intervals s = ∅
  ∧ node_url <$> traverseNodes (tree (sch_store s)) = ["http://y"; "http://x"].
Proof. vm_compute. done. Qed.

(** ** More on the headers *)



(** ** Saving the settings *)




Example saved_headers_example :
  collectHeaders (λ s, s) [("X-A", "1"); ("", "z"); ("X-A", "2")]
  = [mkHeader "X-A" "1"; mkHeader "X-A" "2"]
  ∧ buildHeaders (savedSettings (λ s, s)
                    (mkForm "http://srv" "k" false [("X-A", "1"); ("", "z"); ("X-A", "2")]))
      false !! "X-A" = Some "2".
Proof. vm_compute. done. Qed.

(** X18. Saving with the checkbox off leaves no timer and starts no pass;
    saving with it on registers one timer and starts one pass at once,
    unless the trimmed backend url is empty or the bookmarks API is missing:
    then the timer runs and no pass starts. *)
Theorem save_starts_or_stops (trim : string → string) (form : Form) (s : Scheduler) :
  one_timer s →
  let s' := saveClick trim form s in
  sch_settings s' = savedSettings trim form
  ∧ (autoSyncCheckbox form = false →
     intervals s' = ∅ ∧ syncIntervalId s' = None ∧ passes s' = passes s)
  ∧ (autoSyncCheckbox form = true →
     intervals s' = {[next_interval s]}
     ∧ syncIntervalId s' = Some (next_interval s)
     ∧ passes s'
       = if truthy (trim (backendUrlInput form)) && sch_has_bookmarks s
         then passes s ++ [Fetching]
         else passes s).
Proof.
  intros Hs s'. subst s'. unfold saveClick.
  destruct (autoSyncCheckbox form) eqn:Hbox; simpl.
  - unfold startSync, call_performAutoSync, skip_sync, clear_current. simpl.
    rewrite Hbox. simpl.
    destruct (truthy (trim (backendUrlInput form))), (sch_has_bookmarks s); simpl;
      (split_and!; [done|done|]); intros _;
      (split_and!; [|done|done]); rewrite Hs; destruct (syncIntervalId s); set_solver.
  - unfold clear_current. simpl. split_and!; [done| |done]. intros _.
    split_and!; [|done|done]. rewrite Hs. destruct (syncIntervalId s); set_solver.
Qed.

Lemma save_starts_or_stops_witness :
  let blank := mkForm "" "k" true [("X-A", "1"); ("", "z")] in
  let s' := saveClick (λ s, s) blank scheduler_on in
  intervals s' = {[1%nat]} ∧ syncIntervalId s' = Some 1%nat ∧ passes s' = [].
Proof.
  intros blank s'.
  destruct (save_starts_or_stops (λ s, s) blank scheduler_on) as (_ & _ & Hon);
    [reflexivity|].
  apply Hon. reflexivity.
Defined.

(** ** The tag chips *)

Section TagProperties.

Variable trim : string → string.
Variable toLowerCase : string → string.

Lemma addTag_NoDup val l : NoDup l → NoDup (addTag trim toLowerCase val l).
Proof.
  intros Hl. unfold addTag.
  destruct (truthy (toLowerCase (trim val))); simpl; [|done].
  case_bool_decide; simpl; [done|].
  apply NoDup_app. split_and!; [done| |apply NoDup_singleton].
  intros t Ht ->%list_elem_of_singleton. done.
Qed.

Lemma mergeTags_NoDup tags : ∀ l, NoDup l → NoDup (mergeTags tags l).
Proof.
  induction tags as [|t tags IH]; intros l Hl; [done|].
  simpl. apply IH. case_bool_decide; [done|].
  apply NoDup_app. split_and!; [done| |apply NoDup_singleton].
  intros t' Ht' ->%list_elem_of_singleton. done.
Qed.

Lemma removelast_sublist (l : list string) : removelast l `sublist_of` l.
Proof.
  induction l as [|t l IH]; [done|]. simpl. destruct l; [by apply sublist_nil_l|].
  by apply sublist_skip.
Qed.

Lemma tag_step_NoDup e l : NoDup l → NoDup (tag_step trim toLowerCase e l).
Proof.
  intros Hl. destruct e as [value|value|value|index|tags|]; simpl.
  - by apply addTag_NoDup.
  - destruct (_ && _); [|done]. eapply sublist_NoDup; [done|apply removelast_sublist].
  - destruct (truthy (trim value)); [by apply addTag_NoDup|done].
  - eapply sublist_NoDup; [done|apply sublist_delete].
  - by apply mergeTags_NoDup.
  - constructor.
Qed.

Lemma addTag_truthy val l :
  Forall (λ t, truthy t = true) l →
  Forall (λ t, truthy t = true) (addTag trim toLowerCase val l).
Proof.
  intros Hl. unfold addTag.
  destruct (truthy (toLowerCase (trim val))) eqn:Hclean; simpl; [|done].
  case_bool_decide; simpl; [done|]. apply Forall_app. split; [done|]. by constructor.
Qed.

Lemma Forall_sublist {A} (P : A → Prop) (l1 l2 : list A) :
  l1 `sublist_of` l2 → Forall P l2 → Forall P l1.
Proof.
  intros Hsub Hl2. rewrite Forall_forall in *. intros x Hx.
  apply Hl2. by eapply sublist_subseteq.
Qed.

Lemma tag_step_truthy e l :
  is_existing e = false →
  Forall (λ t, truthy t = true) l →
  Forall (λ t, truthy t = true) (tag_step trim toLowerCase e l).
Proof.
  intros He Hl. destruct e as [value|value|value|index|tags|]; simpl; try done.
  - by apply addTag_truthy.
  - destruct (_ && _); [|done]. eapply Forall_sublist; [apply removelast_sublist|done].
  - destruct (truthy (trim value)); [by apply addTag_truthy|done].
  - eapply Forall_sublist; [apply sublist_delete|done].
Qed.

End TagProperties.

(** X19. Whatever is typed, removed or merged, [currentTagsList] never holds
    the same tag twice, and adding a value a second time changes nothing. *)
Theorem tags_never_repeat (trim toLowerCase : string → string)
    (events : list TagEvent) (val : string) :
  NoDup (tags_after trim toLowerCase events)
  ∧ addTag trim toLowerCase val
      (addTag trim toLowerCase val (tags_after trim toLowerCase events))
    = addTag trim toLowerCase val (tags_after trim toLowerCase events).
Proof.
  split.
  - unfold tags_after. generalize (NoDup_nil_2 (A:=string)).
    generalize (@nil string). induction events as [|e events IH]; intros l Hl; [done|].
    simpl. apply IH. by apply tag_step_NoDup.
  - generalize (tags_after trim toLowerCase events). intros l. unfold addTag.
    destruct (truthy (toLowerCase (trim val))) eqn:Hclean; simpl; [|done].
    destruct (decide (toLowerCase (trim val) ∈ l)) as [Hin|Hin].
    + rewrite (bool_decide_eq_true_2 _ Hin). simpl.
      by rewrite (bool_decide_eq_true_2 _ Hin).
    + rewrite (bool_decide_eq_false_2 _ Hin). simpl.
      rewrite bool_decide_eq_true_2; [done|]. apply elem_of_app. right. left.
Qed.

(** X20. Where no tags come from an existing bookmark (as on the results
    page), no tag of [currentTagsList] is the empty string. *)
Theorem tags_never_empty (trim toLowerCase : string → string)
    (events : list TagEvent) :
  Forall (λ e, is_existing e = false) events →
  Forall (λ t, truthy t = true) (tags_after trim toLowerCase events).
Proof.
  unfold tags_after. generalize (Forall_nil_2 (λ t, truthy t = true)).
  generalize (@nil string). induction events as [|e events IH]; intros l Hl Hev; [done|].
  apply Forall_cons in Hev as [He Hev]. simpl. apply IH; [|done].
  by apply tag_step_truthy.
Qed.

Lemma tags_never_empty_witness :
  Forall (λ t, truthy t = true)
    (tags_after (λ s, s) (λ s, s)
       [KeyEnterOrComma "rust"; KeyEnterOrComma ""; Blur "web"; KeyEnterOrComma "rust";
        RemoveChip 0; KeyBackspace ""]).
Proof.
  apply (tags_never_empty (λ s, s) (λ s, s)). repeat constructor.
Defined.

Example tags_example :
  tags_after (λ s, s) (λ s, s)
    [KeyEnterOrComma "rust"; KeyEnterOrComma ""; Blur "web"; KeyEnterOrComma "rust";
     ExistingTags ["web"; ""; "ai"]; RemoveChip 0; KeyBackspace "x"; KeyBackspace ""]
  = ["web"; ""].
Proof. vm_compute. done. Qed.

(** ** From the chips to the saved bookmark *)

Lemma split_comma_free t : comma_free t = true → split_comma t = [t].
Proof.
  induction t as [|c t IH]; [done|]. cbn [split_comma comma_free].
  intros [Hc Ht]%andb_prop. apply negb_true_iff in Hc. rewrite Hc, (IH Ht). done.
Qed.

Lemma split_comma_append t s :
  comma_free t = true → split_comma (t +:+ "," +:+ s) = t :: split_comma s.
Proof.
  induction t as [|c t IH]; [done|]. cbn [comma_free].
  intros [Hc Ht]%andb_prop. apply negb_true_iff in Hc.
  change (String c t +:+ "," +:+ s) with (String c (t +:+ "," +:+ s)).
  cbn [split_comma]. by rewrite Hc, (IH Ht).
Qed.

Lemma split_join_comma tags :
  tags ≠ [] → Forall (λ t, comma_free t = true) tags →
  split_comma (join_comma tags) = tags.
Proof.
  intros Hne Hfree. induction Hfree as [|t tags Ht Htags IH]; [done|].
  destruct tags as [|t' tags].
  - simpl. by apply split_comma_free.
  - change (join_comma (t :: t' :: tags)) with (t +:+ "," +:+ join_comma (t' :: tags)).
    rewrite split_comma_append by done. by rewrite IH.
Qed.

Lemma typed_tags_round_trip_aux (trim : string → string) (tags : list string) :
  tags ≠ [] →
  Forall (λ t, comma_free t = true ∧ trim t = t ∧ t ≠ "") tags →
  typedTags trim (join_comma tags) = tags.
Proof.
  intros Hne Htags. unfold typedTags. rewrite split_join_comma; [|done|].
  - clear Hne. induction Htags as [|t tags (_ & Htrim & Hfull) _ IH]; [done|].
    rewrite fmap_cons, filter_cons, Htrim, decide_True by done. by rewrite IH.
  - eapply Forall_impl; [exact Htags|]. by intros t [? _].
Qed.

(** X21. The chips come back from the hidden field as they went in: for a
    non-empty list of tags that hold no comma, that [trim] leaves alone and
    that are not empty, splitting the joined value gives the list, and so do
    the tags that the save handler reads. *)
Theorem typed_tags_round_trip (trim : string → string) (tags : list string) :
  tags ≠ [] →
  Forall (λ t, comma_free t = true ∧ trim t = t ∧ t ≠ "") tags →
  split_comma (join_comma tags) = tags
  ∧ typedTags trim (join_comma tags) = tags.
Proof.
  intros Hne Htags. split; [|by apply typed_tags_round_trip_aux].
  apply split_join_comma; [done|]. eapply Forall_impl; [exact Htags|]. by intros t [? _].
Qed.

Lemma typed_tags_round_trip_witness :
  split_comma (join_comma ["rust"; "web dev"; "ai"]) = ["rust"; "web dev"; "ai"]
  ∧ typedTags (λ s, s) (join_comma ["rust"; "web dev"; "ai"]) = ["rust"; "web dev"; "ai"].
Proof.
  apply (typed_tags_round_trip (λ s, s) ["rust"; "web dev"; "ai"]); [done|].
  repeat constructor; done.
Defined.

(** A chip that holds a comma is saved as two tags, and no chip as none. *)
Example comma_chip_is_split :
  typedTags (λ s, s) (join_comma ["a,b"; "c"]) = ["a"; "b"; "c"]
  ∧ typedTags (λ s, s) (join_comma []) = [].
Proof. vm_compute. done. Qed.


